(** * deutsch_wortschatz: the adaptive drill engine of [app.js]

    A shallow embedding of the vocabulary drill in [src/app.js] and the
    properties of its item weighting, weighted sampling, requeue policy,
    distractor generation, statistics persistence and round state machine.

    Conventions of the embedding.
    - JavaScript numbers that the program only ever uses as counters or
      millisecond timestamps are integers ([Z]); numbers that take
      fractional values (weights, error rates, [Math.random()] draws) are
      exact rationals ([Q]).  Rounding, overflow and NaN of IEEE doubles
      are outside the model.
    - [state.stats] is a finite map from ids to records.  An id is taken
      not to be the name of a member that objects inherit from
      [Object.prototype] (such as [constructor]), which the lookup
      [state.stats[id]] would find in place of a record.
    - [Math.random()], [Date.now()] and [localStorage] are explicit parts
      of the environment that every effectful function threads through.
    - Cosmetic DOM writes (texts, colours, css classes) are dropped; the
      DOM state that decides which handler can run next (the choice
      buttons, the [btnNext] button, pending [setTimeout] callbacks) is
      kept. *)

From Stdlib Require Import ZArith QArith Qround Qminmax Lqa Lia.
From stdpp Require Import gmap strings list fin_maps.

Local Open Scope Z_scope.

(* ===================================================================== *)
(** * Constants (app.js, lines 2-9) *)
(* ===================================================================== *)

Definition TARGET_SETS : Z := 20.
Definition RECENT_PENALTY_HOURS : Q := 24.
Definition NEW_ITEM_BONUS : Q := 3.
Definition ERROR_WEIGHT : Q := 4.
Definition RECENT_MIN_FACTOR : Q := 1 # 4.
Definition STORAGE_KEY : string := "de_vocab_stats_v1".

(* ===================================================================== *)
(** * Data *)
(* ===================================================================== *)

(** An entry of [vocab.json].  A missing [tags] array is the empty list
    (the code reads it as [x.tags || []]). *)
Record VocabItem := mkItem {
  id : string;
  article : string;
  lemma : string;
  display : string;
  tags : list string;
  clues_de : list string
}.

(** The per-item statistics record of [defaultStat]. *)
Record Stat := mkStat {
  seen : Z;
  correctMeaning : Z;
  wrongMeaning : Z;
  correctArticle : Z;
  wrongArticle : Z;
  lastSeenAt : Z
}.

Definition defaultStat : Stat := mkStat 0 0 0 0 0 0.

Inductive Phase := meaning | article_phase.

(** One entry of [state.meaningChoices]. *)
Record Choice := mkChoice {
  ch_id : string;
  ch_display : string;
  isCorrect : bool
}.

#[global] Instance VocabItem_eq_dec : EqDecision VocabItem.
Proof. solve_decision. Defined.
#[global] Instance Stat_eq_dec : EqDecision Stat.
Proof. solve_decision. Defined.
#[global] Instance Phase_eq_dec : EqDecision Phase.
Proof. solve_decision. Defined.
#[global] Instance Choice_eq_dec : EqDecision Choice.
Proof. solve_decision. Defined.

(* ===================================================================== *)
(** * Math.random *)
(* ===================================================================== *)

(** The random source: [gen n] is the value of the [n]-th call of
    [Math.random()], [pos] counts the calls made so far. *)
Record Rng := mkRng { gen : nat -> Q; pos : nat }.

Definition next_random (g : Rng) : Q * Rng :=
  (gen g (pos g), mkRng (gen g) (S (pos g))).

(** The contract of [Math.random()]: every draw lies in [0,1). *)
Definition unit_interval (g : Rng) : Prop :=
  forall n, (0 <= gen g n)%Q /\ (gen g n < 1)%Q.

(* ===================================================================== *)
(** * The weight function (lines 96-111, 141-156) *)
(* ===================================================================== *)

Definition totalAnswers (st : Stat) : Z :=
  correctMeaning st + wrongMeaning st + correctArticle st + wrongArticle st.

Definition totalWrong (st : Stat) : Z :=
  wrongMeaning st + wrongArticle st.

(** [errorRate(st)] *)
Definition errorRate (st : Stat) : Q :=
  let total := totalAnswers st in
  let wrong := totalWrong st in
  if total =? 0 then 0%Q else (inject_Z wrong / inject_Z total)%Q.

Definition MS_PER_HOUR : Q := inject_Z (1000 * 60 * 60).

(** [recencyFactor(st)] with the value [now] read from [Date.now()].  The
    clock is only read when [lastSeenAt] is truthy. *)
Definition recencyFactor (now : Z) (st : Stat) : Q :=
  if lastSeenAt st =? 0 then 1%Q
  else
    let hours := (inject_Z (now - lastSeenAt st) / MS_PER_HOUR)%Q in
    if Qle_bool RECENT_PENALTY_HOURS hours then 1%Q
    else
      let x := (hours / RECENT_PENALTY_HOURS)%Q in
      Qmax RECENT_MIN_FACTOR x.

Definition newBonus (st : Stat) : Q :=
  if seen st =? 0 then NEW_ITEM_BONUS else 1%Q.



(* ===================================================================== *)
(** * Weighted sampling without replacement (lines 114-139) *)
(* ===================================================================== *)

Section Sampler.
Context {A W : Type}.
(** [weightFn] may read and write the environment [W] (the real one
    creates missing statistics and reads the clock); [random] is
    [Math.random()]. *)
Variable weightFn : A -> W -> Q * W.
Variable random : W -> Q * W.

(** [pool.map(weightFn)] *)
Fixpoint map_weights (pool : list A) (w : W) : list Q * W :=
  match pool with
  | [] => ([], w)
  | x :: rest =>
      let '(q, w1) := weightFn x w in
      let '(qs, w2) := map_weights rest w1 in
      (q :: qs, w2)
  end.

(** [for(const w of weights) sum += Math.max(0, w)] *)
Definition clamped_sum (weights : list Q) : Q :=
  fold_left (fun sum w => (sum + Qmax 0 w)%Q) weights 0%Q.

(** The inner loop: [r -= Math.max(0, weights[idx]); if(r <= 0) break]. *)
Fixpoint walk (r : Q) (weights : list Q) (idx : nat) : nat :=
  match weights with
  | [] => idx
  | wt :: rest =>
      let r' := (r - Qmax 0 wt)%Q in
      if Qle_bool r' 0 then idx else walk r' rest (S idx)
  end.

(** [pool.splice(i, 1)[0]] together with the pool that is left. *)
Definition splice1 (i : nat) (pool : list A) : option A * list A :=
  (pool !! i, take i pool ++ drop (S i) pool).

(** One pass through the body of the outer [for].  The loop guard has
    already established a non-empty pool, given as [x :: rest]. *)
Definition draw_step (x : A) (rest picked : list A) (w : W)
  : list A * list A * W :=
  let pool := x :: rest in
  let '(weights, w1) := map_weights pool w in
  let sum := clamped_sum weights in
  if Qle_bool sum 0 then
    (* picked.push(pool.shift()); continue *)
    (rest, picked ++ [x], w1)
  else
    let '(u, w2) := random w1 in
    let r := (u * sum)%Q in
    let idx := walk r weights 0 in
    let i := Nat.min idx (length pool - 1) in
    match splice1 i pool with
    | (Some chosen, pool') => (pool', picked ++ [chosen], w2)
    | (None, pool') => (pool', picked, w2)
    end.

(** The outer loop: [n] iterations are still allowed by [i < k]; the
    conjunct [pool.length > 0] is the match on the pool. *)
Fixpoint pick_loop (n : nat) (pool picked : list A) (w : W)
  : list A * W :=
  match n with
  | O => (picked, w)
  | S n' =>
      match pool with
      | [] => (picked, w)
      | x :: rest =>
          let '(pool', picked', w') := draw_step x rest picked w in
          pick_loop n' pool' picked' w'
      end
  end.

(** [pickWeightedUnique(items, k, weightFn)] *)
Definition pickWeightedUnique (items : list A) (k : Z) (w : W)
  : list A * W :=
  pick_loop (Z.to_nat k) items [] w.
End Sampler.

(* ===================================================================== *)
(** * shuffle and intersectTags (lines 28-41) *)
(* ===================================================================== *)

(** [[a[i],a[j]] = [a[j],a[i]]]: the right-hand side is read first, then
    [a[i]] and [a[j]] are written in this order.  Under the contract of
    [Math.random()] both indices are inside the array; an index outside
    leaves the list unchanged here. *)
Definition swap {A : Type} (a : list A) (i j : nat) : list A :=
  match a !! i, a !! j with
  | Some x, Some y => <[j := x]> (<[i := y]> a)
  | _, _ => a
  end.

(** [Math.floor(u * n)] as an array index. *)
Definition floor_index (u : Q) (n : nat) : nat :=
  Z.to_nat (Qfloor (u * inject_Z (Z.of_nat n))).

(** The loop [for(let i=a.length-1;i>0;i--)], entered with index [i]. *)
Fixpoint shuffle_loop {A : Type} (i : nat) (a : list A) (g : Rng)
  : list A * Rng :=
  match i with
  | O => (a, g)
  | S i' =>
      let '(u, g') := next_random g in
      let j := floor_index u (i + 1) in
      shuffle_loop i' (swap a i j) g'
  end.

(** [shuffle(arr)] *)
Definition shuffle {A : Type} (arr : list A) (g : Rng) : list A * Rng :=
  shuffle_loop (length arr - 1) arr g.

(** [intersectTags(aTags, bTags)] *)
Definition intersectTags (aTags bTags : list string) : bool :=
  let s : gset string := list_to_set aTags in
  existsb (fun t => bool_decide (t ∈ s)) bTags.

(** A JavaScript [Map] keeps its keys in insertion order; setting an
    existing key replaces the value in place. *)
Fixpoint Map_set {V : Type} (k : string) (v : V) (m : list (string * V))
  : list (string * V) :=
  match m with
  | [] => [(k, v)]
  | (k', v') :: m' =>
      if decide (k = k') then (k, v) :: m' else (k', v') :: Map_set k v m'
  end.

(** [new Map(entries)] *)
Definition Map_new {V : Type} (entries : list (string * V))
  : list (string * V) :=
  fold_left (fun m e => Map_set e.1 e.2 m) entries [].

(** [Array.from(m.values())] *)
Definition Map_values {V : Type} (m : list (string * V)) : list V := m.*2.

(* ===================================================================== *)
(** * The program state and its environment *)
(* ===================================================================== *)

(** The global [state] object (lines 13-26).  [current] is [None] for
    [null] and for the [undefined] that [Array.prototype.shift] returns on
    an empty queue. *)
Record State := mkState {
  vocab : list VocabItem;
  stats : gmap string Stat;
  target : Z;
  done : Z;
  score : Z;
  streak : Z;
  phase : Phase;
  queue : list VocabItem;
  current : option VocabItem;
  meaningChoices : list Choice;
  lock : bool;
  currentClue : string
}.

(** [localStorage]: reads and writes may throw (storage disabled, quota
    exceeded).  [ls_calls] logs every [setItem] call that was issued. *)
Record Storage := mkStorage {
  ls_readable : bool;
  ls_writable : bool;
  ls_data : gmap string string;
  ls_calls : list (string * string)
}.

(** The buttons inside [#choices], as the last [render] or
    [disableChoices] left them. *)
Inductive Buttons :=
| NoButtons
| MeaningButtons (cs : list Choice) (enabled : bool)
| ArticleButtons (enabled : bool).

Record Env := mkEnv {
  rng : Rng;
  clock : nat -> Z;          (* [clock n]: value of the n-th [Date.now()] *)
  clock_pos : nat;
  storage : Storage;
  buttons : Buttons;
  btnNextDisabled : bool;
  timers : nat               (* pending [setTimeout(render, 320)] *)
}.

Record Sys := mkSys { st : State; env : Env }.

(** Values that [JSON.parse] can return. *)
#[warnings="-register-all"] Inductive JsValue :=
| JNull
| JBool (b : bool)
| JNum (q : Q)
| JStr (s : string)
| JArr (elems : list JsValue)
| JObj (fields : list (string * JsValue)).

(** The two JSON built-ins.  [JSON_parse] returns [None] where
    [JSON.parse] throws a [SyntaxError]. *)
Class JSON := {
  JSON_stringify : gmap string Stat -> string;
  JSON_parse : string -> option JsValue
}.

(** ** Field updates *)

Definition set_stats (v : gmap string Stat) (s : State) : State :=
  mkState (vocab s) v (target s) (done s) (score s) (streak s) (phase s)
          (queue s) (current s) (meaningChoices s) (lock s) (currentClue s).
Definition set_done (v : Z) (s : State) : State :=
  mkState (vocab s) (stats s) (target s) v (score s) (streak s) (phase s)
          (queue s) (current s) (meaningChoices s) (lock s) (currentClue s).
Definition set_score (v : Z) (s : State) : State :=
  mkState (vocab s) (stats s) (target s) (done s) v (streak s) (phase s)
          (queue s) (current s) (meaningChoices s) (lock s) (currentClue s).
Definition set_streak (v : Z) (s : State) : State :=
  mkState (vocab s) (stats s) (target s) (done s) (score s) v (phase s)
          (queue s) (current s) (meaningChoices s) (lock s) (currentClue s).
Definition set_phase (v : Phase) (s : State) : State :=
  mkState (vocab s) (stats s) (target s) (done s) (score s) (streak s) v
          (queue s) (current s) (meaningChoices s) (lock s) (currentClue s).
Definition set_queue (v : list VocabItem) (s : State) : State :=
  mkState (vocab s) (stats s) (target s) (done s) (score s) (streak s)
          (phase s) v (current s) (meaningChoices s) (lock s) (currentClue s).
Definition set_current (v : option VocabItem) (s : State) : State :=
  mkState (vocab s) (stats s) (target s) (done s) (score s) (streak s)
          (phase s) (queue s) v (meaningChoices s) (lock s) (currentClue s).
Definition set_meaningChoices (v : list Choice) (s : State) : State :=
  mkState (vocab s) (stats s) (target s) (done s) (score s) (streak s)
          (phase s) (queue s) (current s) v (lock s) (currentClue s).
Definition set_lock (v : bool) (s : State) : State :=
  mkState (vocab s) (stats s) (target s) (done s) (score s) (streak s)
          (phase s) (queue s) (current s) (meaningChoices s) v (currentClue s).
Definition set_currentClue (v : string) (s : State) : State :=
  mkState (vocab s) (stats s) (target s) (done s) (score s) (streak s)
          (phase s) (queue s) (current s) (meaningChoices s) (lock s) v.

Definition set_rng (v : Rng) (e : Env) : Env :=
  mkEnv v (clock e) (clock_pos e) (storage e) (buttons e)
        (btnNextDisabled e) (timers e).
Definition set_clock_pos (v : nat) (e : Env) : Env :=
  mkEnv (rng e) (clock e) v (storage e) (buttons e)
        (btnNextDisabled e) (timers e).
Definition set_storage (v : Storage) (e : Env) : Env :=
  mkEnv (rng e) (clock e) (clock_pos e) v (buttons e)
        (btnNextDisabled e) (timers e).
Definition set_buttons (v : Buttons) (e : Env) : Env :=
  mkEnv (rng e) (clock e) (clock_pos e) (storage e) v
        (btnNextDisabled e) (timers e).
Definition set_btnNextDisabled (v : bool) (e : Env) : Env :=
  mkEnv (rng e) (clock e) (clock_pos e) (storage e) (buttons e) v (timers e).
Definition set_timers (v : nat) (e : Env) : Env :=
  mkEnv (rng e) (clock e) (clock_pos e) (storage e) (buttons e)
        (btnNextDisabled e) v.

Definition on_state (f : State -> State) (σ : Sys) : Sys :=
  mkSys (f (st σ)) (env σ).
Definition on_env (f : Env -> Env) (σ : Sys) : Sys :=
  mkSys (st σ) (f (env σ)).

(** ** Statements that may throw *)

(** The result of running a piece of code: it returns normally with a
    value, or an exception escapes from it; both leave a state behind. *)
Inductive Outcome (A : Type) :=
| Normal (a : A) (σ : Sys)
| Thrown (σ : Sys).
Arguments Normal {A} a σ.
Arguments Thrown {A} σ.

Definition JS (A : Type) : Type := Sys -> Outcome A.

#[global] Instance JS_ret : MRet JS := fun A a σ => Normal a σ.
#[global] Instance JS_bind : MBind JS := fun A B f m σ =>
  match m σ with
  | Normal a σ' => f a σ'
  | Thrown σ' => Thrown σ'
  end.

Definition throw {A : Type} : JS A := fun σ => Thrown σ.

(** [try { body } catch { handler }] *)
Definition try_catch {A : Type} (body handler : JS A) : JS A := fun σ =>
  match body σ with
  | Normal a σ' => Normal a σ'
  | Thrown σ' => handler σ'
  end.

(** Code that cannot throw is written in state-passing style and lifted. *)
Definition lift {A : Type} (f : Sys -> A * Sys) : JS A := fun σ =>
  let '(a, σ') := f σ in Normal a σ'.

Definition update (f : Sys -> Sys) : JS unit := fun σ => Normal tt (f σ).
Definition read {A : Type} (f : Sys -> A) : JS A := fun σ => Normal (f σ) σ.

(** The state an outcome leaves behind. *)
Definition final {A : Type} (o : Outcome A) : Sys :=
  match o with Normal _ σ => σ | Thrown σ => σ end.

Definition threw {A : Type} (o : Outcome A) : bool :=
  match o with Normal _ _ => false | Thrown _ => true end.

(* ===================================================================== *)
(** * Environment calls *)
(* ===================================================================== *)

(** [Math.random()] *)
Definition Math_random (σ : Sys) : Q * Sys :=
  let '(u, g) := next_random (rng (env σ)) in (u, on_env (set_rng g) σ).

(** [Date.now()] *)
Definition Date_now (σ : Sys) : Z * Sys :=
  let e := env σ in
  (clock e (clock_pos e), on_env (set_clock_pos (S (clock_pos e))) σ).

(** [shuffle] on the random source of the environment. *)
Definition shuffleS {A : Type} (arr : list A) (σ : Sys) : list A * Sys :=
  let '(a, g) := shuffle arr (rng (env σ)) in (a, on_env (set_rng g) σ).

(** [localStorage.getItem(key)] *)
Definition getItem (key : string) : JS (option string) := fun σ =>
  let ls := storage (env σ) in
  if ls_readable ls then Normal (ls_data ls !! key) σ else Thrown σ.

(** [localStorage.setItem(key, value)] *)
Definition setItem (key value : string) : JS unit := fun σ =>
  let ls := storage (env σ) in
  let calls := ls_calls ls ++ [(key, value)] in
  if ls_writable ls then
    Normal tt (on_env (set_storage
      (mkStorage (ls_readable ls) (ls_writable ls)
                 (<[key := value]> (ls_data ls)) calls)) σ)
  else
    Thrown (on_env (set_storage
      (mkStorage (ls_readable ls) (ls_writable ls) (ls_data ls) calls)) σ).

(** JavaScript truthiness and [typeof] on parsed JSON. *)
Definition truthy (v : JsValue) : bool :=
  match v with
  | JNull => false
  | JBool b => b
  | JNum q => negb (Qeq_bool q 0)
  | JStr s => negb (bool_decide (s = ""))
  | JArr _ | JObj _ => true
  end.

Definition typeof (v : JsValue) : string :=
  match v with
  | JNull | JArr _ | JObj _ => "object"
  | JBool _ => "boolean"
  | JNum _ => "number"
  | JStr _ => "string"
  end.

(** The object literal [{}]. *)
Definition empty_object : JsValue := JObj [].

(* ===================================================================== *)
(** * Statistics persistence (lines 55-94) *)
(* ===================================================================== *)

Section App.
Context `{JSON}.

(** [loadStats()] *)
Definition loadStats : JS JsValue :=
  try_catch
    (raw ← getItem STORAGE_KEY;
     match raw with
     | None => mret empty_object
     | Some text =>
         if bool_decide (text = "") then mret empty_object
         else
           match JSON_parse text with
           | None => throw
           | Some parsed =>
               mret (if truthy parsed
                        && bool_decide (typeof parsed = "object")
                     then parsed else empty_object)
           end
     end)
    (mret empty_object).

(** [saveStats()] *)
Definition saveStats : JS unit :=
  try_catch
    (payload ← read (fun σ => JSON_stringify (stats (st σ)));
     setItem STORAGE_KEY payload)
    (mret tt).

(** [ensureStat(id)]: the record stored under [id], created when absent.
    The caller mutates the returned object in place; here it writes the
    changed record back with [put_stat]. *)
Definition ensureStat (i : string) (σ : Sys) : Stat * Sys :=
  match stats (st σ) !! i with
  | Some s => (s, σ)
  | None =>
      (defaultStat,
       on_state (set_stats (<[i := defaultStat]> (stats (st σ)))) σ)
  end.

Definition put_stat (i : string) (s : Stat) (σ : Sys) : Sys :=
  on_state (set_stats (<[i := s]> (stats (st σ)))) σ.

(** [recordSeen(itemId)] *)
Definition recordSeen (itemId : string) : JS unit :=
  s ← lift (ensureStat itemId);
  now ← lift Date_now;
  update (put_stat itemId
    (mkStat (seen s + 1) (correctMeaning s) (wrongMeaning s)
            (correctArticle s) (wrongArticle s) now));;
  saveStats.

(** [recordResult(itemId, phase, isCorrect)] *)
Definition recordResult (itemId : string) (ph : Phase) (correct : bool)
  : JS unit :=
  s ← lift (ensureStat itemId);
  update (put_stat itemId
    match ph, correct with
    | meaning, true =>
        mkStat (seen s) (correctMeaning s + 1) (wrongMeaning s)
               (correctArticle s) (wrongArticle s) (lastSeenAt s)
    | meaning, false =>
        mkStat (seen s) (correctMeaning s) (wrongMeaning s + 1)
               (correctArticle s) (wrongArticle s) (lastSeenAt s)
    | article_phase, true =>
        mkStat (seen s) (correctMeaning s) (wrongMeaning s)
               (correctArticle s + 1) (wrongArticle s) (lastSeenAt s)
    | article_phase, false =>
        mkStat (seen s) (correctMeaning s) (wrongMeaning s)
               (correctArticle s) (wrongArticle s + 1) (lastSeenAt s)
    end);;
  saveStats.

(** [recencyFactor(st)] with its clock read. *)
Definition recencyFactorS (s : Stat) (σ : Sys) : Q * Sys :=
  if lastSeenAt s =? 0 then (1%Q, σ)
  else let '(now, σ') := Date_now σ in (recencyFactor now s, σ').

(** [itemWeight(item)] *)
Definition itemWeight (item : VocabItem) (σ : Sys) : Q * Sys :=
  let '(s, σ1) := ensureStat (id item) σ in
  let nb := newBonus s in
  let er := errorRate s in
  let eb := (1 + er * ERROR_WEIGHT)%Q in
  let '(rec, σ2) := recencyFactorS s σ1 in
  ((nb * eb * rec)%Q, σ2).
End App.

(* ===================================================================== *)
(** * Choice generation (lines 159-184) *)
(* ===================================================================== *)

Definition other_than (item x : VocabItem) : Prop := id x ≠ id item.

(** [pool.filter(x => x.id !== item.id && intersectTags(x.tags, item.tags))] *)
Definition sameTag (pool : list VocabItem) (item : VocabItem)
  : list VocabItem :=
  filter (fun x => id x ≠ id item /\ intersectTags (tags x) (tags item) = true)
         pool.

Definition candidates (pool : list VocabItem) (item : VocabItem)
  : list VocabItem :=
  let same := sameTag pool item in
  if decide (10 <= length same)%nat then same
  else same ++ filter (other_than item) pool.

Definition diffArticle (pool : list VocabItem) (item : VocabItem)
  : list VocabItem :=
  filter (fun x => article x ≠ article item) (candidates pool item).

Definition pref (pool : list VocabItem) (item : VocabItem)
  : list VocabItem :=
  let diff := diffArticle pool item in
  if decide (2 <= length diff)%nat then diff else candidates pool item.

(** [Array.from(new Map(ds.map(d => [d.id, d])).values()).slice(0,2)] *)
Definition dedupe (ds : list VocabItem) : list VocabItem :=
  take 2 (Map_values (Map_new ((fun d => (id d, d)) <$> ds))).

(** [pool.filter(x => x.id !== item.id && !ds.some(d => d.id === x.id))] *)
Definition rest_of (pool : list VocabItem) (item : VocabItem)
    (ds : list VocabItem) : list VocabItem :=
  filter (fun x => id x ≠ id item /\ id x ∉ (id <$> ds)) pool.

(** The two distractors, before the final shuffle. *)
Definition pick_distractors (pool : list VocabItem) (item : VocabItem)
    (g : Rng) : list VocabItem * Rng :=
  let '(sh, g1) := shuffle (pref pool item) g in
  let ds := dedupe (take 2 sh) in
  if decide (length ds < 2)%nat then
    let '(sh2, g2) := shuffle (rest_of pool item ds) g1 in
    (ds ++ take (2 - length ds) sh2, g2)
  else (ds, g1).

Definition to_choice (item x : VocabItem) : Choice :=
  mkChoice (id x) (display x) (bool_decide (id x = id item)).

(** [buildMeaningChoices(item)] over the catalogue [pool = state.vocab]. *)
Definition buildMeaningChoices_on (pool : list VocabItem) (item : VocabItem)
    (g : Rng) : list Choice * Rng :=
  let '(ds, g1) := pick_distractors pool item g in
  let '(sh, g2) := shuffle (item :: ds) g1 in
  (to_choice item <$> sh, g2).

Definition buildMeaningChoices (item : VocabItem) (σ : Sys)
  : list Choice * Sys :=
  let '(cs, g) := buildMeaningChoices_on (vocab (st σ)) item (rng (env σ)) in
  (cs, on_env (set_rng g) σ).

(* ===================================================================== *)
(** * Rendering (lines 187-237) *)
(* ===================================================================== *)

(** [item.clues_de[Math.floor(Math.random() * item.clues_de.length)]];
    an [undefined] element is as falsy as the empty string. *)
Definition pick_clue (item : VocabItem) (σ : Sys) : string * Sys :=
  let '(u, σ') := Math_random σ in
  (default "" (clues_de item !! floor_index u (length (clues_de item))), σ').

(** [render()]: disables [btnNext]; without a current item it stops
    there, otherwise it fixes the clue and rebuilds the choice buttons for
    the phase the state is in. *)
Definition render (σ : Sys) : Sys :=
  let σ1 := on_env (set_btnNextDisabled true) σ in
  match current (st σ1) with
  | None => σ1
  | Some item =>
      let σ2 :=
        if bool_decide (currentClue (st σ1) = "") then
          let '(c, σ') := pick_clue item σ1 in
          on_state (set_currentClue c) σ'
        else σ1 in
      match phase (st σ2) with
      | meaning =>
          on_env (set_buttons (MeaningButtons (meaningChoices (st σ2)) true)) σ2
      | article_phase =>
          on_env (set_buttons (ArticleButtons true)) σ2
      end
  end.

(** [disableChoices()] *)
Definition disableChoices (σ : Sys) : Sys :=
  on_env (fun e =>
    set_buttons
      match buttons e with
      | NoButtons => NoButtons
      | MeaningButtons cs _ => MeaningButtons cs false
      | ArticleButtons _ => ArticleButtons false
      end e) σ.

(** [setTimeout(render, 320)] *)
Definition setTimeout_render (σ : Sys) : Sys :=
  on_env (fun e => set_timers (S (timers e)) e) σ.

(* ===================================================================== *)
(** * The requeue policy (lines 260-272) *)
(* ===================================================================== *)

(** [Math.max(2, Math.min(6, 6 - Math.floor(wrong / 2)))] *)
Definition afterN (wrong : Z) : Z :=
  Z.max 2 (Z.min 6 (6 - wrong / 2)).

(** [queue.splice(insertAt, 0, item)] *)
Definition splice_in {A : Type} (insertAt : nat) (x : A) (q : list A)
  : list A :=
  take insertAt q ++ x :: drop insertAt q.

(** [requeueCurrentAdaptive()] *)
Definition requeueCurrentAdaptive (σ : Sys) : Sys :=
  match current (st σ) with
  | None => σ
  | Some item =>
      let '(s, σ1) := ensureStat (id item) σ in
      let wrong := wrongMeaning s + wrongArticle s in
      let n := afterN wrong in
      let insertAt := Z.min (Z.of_nat (length (queue (st σ1)))) n in
      on_state (fun t =>
        set_queue (splice_in (Z.to_nat insertAt) item (queue t)) t) σ1
  end.

(* ===================================================================== *)
(** * Answer handlers and the round (lines 274-374) *)
(* ===================================================================== *)

Section Round.
Context `{JSON}.

(** Reading a property of [state.current]: a [TypeError] when it is
    [null] or [undefined]. *)
Definition current_item : JS VocabItem := fun σ =>
  match current (st σ) with
  | Some item => Normal item σ
  | None => Thrown σ
  end.

(** [onMeaningAnswer(choice)] *)
Definition onMeaningAnswer (choice : Choice) : JS unit :=
  locked ← read (fun σ => lock (st σ));
  if locked : bool then mret tt
  else
    update (on_state (set_lock true));;
    update disableChoices;;
    let correct := isCorrect choice in
    cur ← current_item;
    recordResult (id cur) meaning correct;;
    if correct then
      update (on_state (fun t => set_score (score t + 2) t));;
      update (on_state (fun t => set_streak (streak t + 1) t));;
      update (on_state (set_phase article_phase));;
      update (on_state (set_lock false));;
      update setTimeout_render
    else
      update (on_state (fun t => set_score (Z.max 0 (score t - 1)) t));;
      update (on_state (set_streak 0));;
      update requeueCurrentAdaptive;;
      update (on_env (set_btnNextDisabled false));;
      update (on_state (set_lock false)).

(** [onArticleAnswer(article)] *)
Definition onArticleAnswer (a : string) : JS unit :=
  locked ← read (fun σ => lock (st σ));
  if locked : bool then mret tt
  else
    update (on_state (set_lock true));;
    update disableChoices;;
    cur ← current_item;
    let correct := bool_decide (a = article cur) in
    recordResult (id cur) article_phase correct;;
    if correct then
      update (on_state (fun t => set_score (score t + 2) t));;
      update (on_state (fun t => set_streak (streak t + 1) t));;
      update (on_state (fun t => set_done (done t + 1) t));;
      update (on_env (set_btnNextDisabled false));;
      update (on_state (set_lock false))
    else
      update (on_state (fun t => set_score (Z.max 0 (score t - 1)) t));;
      update (on_state (set_streak 0));;
      update requeueCurrentAdaptive;;
      update (on_env (set_btnNextDisabled false));;
      update (on_state (set_lock false)).

(** [state.current = state.queue.shift()] *)
Definition shift_queue (t : State) : State :=
  set_current (head (queue t)) (set_queue (tail (queue t)) t).

(** [nextItem()] *)
Definition nextItem : JS unit :=
  t ← read st;
  if decide (target t <= done t) then
    update (on_env (set_buttons NoButtons));;
    update (on_env (set_btnNextDisabled true))
  else
    update (on_state (set_phase meaning));;
    update (on_state shift_queue);;
    update (on_state (set_currentClue ""));;
    cur ← current_item;
    recordSeen (id cur);;
    cs ← lift (buildMeaningChoices cur);
    update (on_state (set_meaningChoices cs));;
    update render.

(** [for(const it of state.vocab) ensureStat(it.id)] *)
Definition ensure_all (items : list VocabItem) (σ : Sys) : Sys :=
  fold_left (fun σ' it => (ensureStat (id it) σ').2) items σ.

(** [buildRoundQueue()] *)
Definition buildRoundQueue (σ : Sys) : list VocabItem * Sys :=
  let σ1 := ensure_all (vocab (st σ)) σ in
  let '(picked, σ2) :=
    pickWeightedUnique itemWeight Math_random (vocab (st σ1)) TARGET_SETS σ1 in
  match picked with
  | [] =>
      let '(sh, σ3) := shuffleS (vocab (st σ2)) σ2 in
      (take (Z.to_nat TARGET_SETS) sh, σ3)
  | _ => (picked, σ2)
  end.

(** [startRound()] *)
Definition startRound : JS unit :=
  update (on_state (set_done 0));;
  update (on_state (set_score 0));;
  update (on_state (set_streak 0));;
  update (on_state (set_phase meaning));;
  q ← lift buildRoundQueue;
  update (on_state (set_queue q));;
  nextItem.

(** ** The page as an event system

    What can happen next is a click on an enabled button or a pending
    timer firing.  An exception that escapes from a handler ends that
    handler only; the page lives on in the state it left. *)
Inductive Event :=
| ClickChoice (ch : Choice)
| ClickArticle (a : string)
| ClickNext
| ClickRestart
| TimerFires.

Definition article_buttons : list string := ["der"; "die"; "das"].

Definition enabled (e : Event) (σ : Sys) : bool :=
  match e with
  | ClickChoice ch =>
      match buttons (env σ) with
      | MeaningButtons cs true => bool_decide (ch ∈ cs)
      | _ => false
      end
  | ClickArticle a =>
      match buttons (env σ) with
      | ArticleButtons true => bool_decide (a ∈ article_buttons)
      | _ => false
      end
  | ClickNext => negb (btnNextDisabled (env σ))
  | ClickRestart => true
  | TimerFires => bool_decide (0 < timers (env σ))%nat
  end.

Definition handler (e : Event) : JS unit :=
  match e with
  | ClickChoice ch => onMeaningAnswer ch
  | ClickArticle a => onArticleAnswer a
  | ClickNext => update (on_env (set_btnNextDisabled true));; nextItem
  | ClickRestart => startRound
  | TimerFires =>
      update (on_env (fun e => set_timers (pred (timers e)) e));;
      update render
  end.

Definition step (e : Event) (σ : Sys) : option Sys :=
  if enabled e σ then Some (final (handler e σ)) else None.

Fixpoint run (es : list Event) (σ : Sys) : option Sys :=
  match es with
  | [] => Some σ
  | e :: es' =>
      match step e σ with
      | Some σ' => run es' σ'
      | None => None
      end
  end.

(** The state [init()] reaches before its call of [startRound()]: the
    literal of lines 13-26 with the loaded statistics and catalogue, on a
    page without choice buttons and without pending timers. *)
Definition loaded (items : list VocabItem) (stored : gmap string Stat)
    (e : Env) : Sys :=
  mkSys (mkState items stored TARGET_SETS 0 0 0 meaning [] None [] false "")
        (set_timers 0 (set_buttons NoButtons e)).

Definition booted (items : list VocabItem) (stored : gmap string Stat)
    (e : Env) : Sys :=
  final (startRound (loaded items stored e)).

(** The states of a session. *)
Inductive reachable : Sys -> Prop :=
| reach_boot items stored e : reachable (booted items stored e)
| reach_step σ e σ' : reachable σ -> step e σ = Some σ' -> reachable σ'.
End Round.

(* ===================================================================== *)
(** * Notions used in the statements *)
(* ===================================================================== *)

(** The data-model invariant of a statistics record: no counter is
    negative. *)
Definition wf_stat (s : Stat) : Prop :=
  0 <= seen s /\ 0 <= correctMeaning s /\ 0 <= wrongMeaning s
  /\ 0 <= correctArticle s /\ 0 <= wrongArticle s.

(** Hours since the item was last seen. *)
Definition age_hours (now : Z) (s : Stat) : Q :=
  (inject_Z (now - lastSeenAt s) / MS_PER_HOUR)%Q.



(** [clamp(x, min, max)] in the specification's words. *)
Definition clamp (x lo hi : Z) : Z :=
  if x <? lo then lo else if hi <? x then hi else x.

(** What a state shows of the round: every field of [state] except the
    statistics, and the part of the page that decides which events are
    enabled.  Statistics, random source, clock and storage are left out. *)
Record RoundView := mkView {
  v_vocab : list VocabItem;
  v_target : Z;
  v_done : Z;
  v_score : Z;
  v_streak : Z;
  v_phase : Phase;
  v_queue : list VocabItem;
  v_current : option VocabItem;
  v_meaningChoices : list Choice;
  v_lock : bool;
  v_currentClue : string;
  v_buttons : Buttons;
  v_btnNextDisabled : bool;
  v_timers : nat
}.

Definition round_view (σ : Sys) : RoundView :=
  let t := st σ in
  let e := env σ in
  mkView (vocab t) (target t) (done t) (score t) (streak t) (phase t) (queue t)
         (current t) (meaningChoices t) (lock t) (currentClue t)
         (buttons e) (btnNextDisabled e) (timers e).

(** ** The effect of the handlers on the round view *)

Definition disabled (b : Buttons) : Buttons :=
  match b with
  | NoButtons => NoButtons
  | MeaningButtons cs _ => MeaningButtons cs false
  | ArticleButtons _ => ArticleButtons false
  end.

(** A handler that took the lock and disabled the buttons, then threw. *)
Definition view_locked (v : RoundView) : RoundView :=
  mkView (v_vocab v) (v_target v) (v_done v) (v_score v) (v_streak v)
         (v_phase v) (v_queue v) (v_current v) (v_meaningChoices v) true
         (v_currentClue v) (disabled (v_buttons v)) (v_btnNextDisabled v)
         (v_timers v).

(** A right answer in the meaning phase. *)
Definition view_meaning_hit (v : RoundView) : RoundView :=
  mkView (v_vocab v) (v_target v) (v_done v) (v_score v + 2) (v_streak v + 1)
         article_phase (v_queue v) (v_current v) (v_meaningChoices v) false
         (v_currentClue v) (disabled (v_buttons v)) (v_btnNextDisabled v)
         (S (v_timers v)).

(** A right answer in the article phase. *)
Definition view_article_hit (v : RoundView) : RoundView :=
  mkView (v_vocab v) (v_target v) (v_done v + 1) (v_score v + 2)
         (v_streak v + 1) (v_phase v) (v_queue v) (v_current v)
         (v_meaningChoices v) false (v_currentClue v) (disabled (v_buttons v))
         false (v_timers v).

(** A wrong answer in either phase: [item] goes back into the queue at
    index [pos]. *)
Definition view_miss (pos : nat) (item : VocabItem) (v : RoundView)
  : RoundView :=
  mkView (v_vocab v) (v_target v) (v_done v) (Z.max 0 (v_score v - 1)) 0
         (v_phase v) (splice_in pos item (v_queue v)) (v_current v)
         (v_meaningChoices v) false (v_currentClue v) (disabled (v_buttons v))
         false (v_timers v).

(** [nextItem] when the round is complete. *)
Definition view_complete (v : RoundView) : RoundView :=
  mkView (v_vocab v) (v_target v) (v_done v) (v_score v) (v_streak v)
         (v_phase v) (v_queue v) (v_current v) (v_meaningChoices v) (v_lock v)
         (v_currentClue v) NoButtons true (v_timers v).

(** [nextItem] on an empty queue, at the point where it throws. *)
Definition view_underflow (v : RoundView) : RoundView :=
  mkView (v_vocab v) (v_target v) (v_done v) (v_score v) (v_streak v)
         meaning [] None (v_meaningChoices v) (v_lock v) ""
         (v_buttons v) (v_btnNextDisabled v) (v_timers v).

(** [nextItem] drawing [item] and leaving [rest] in the queue. *)
Definition view_draw (item : VocabItem) (rest : list VocabItem)
    (cs : list Choice) (clue : string) (v : RoundView) : RoundView :=
  mkView (v_vocab v) (v_target v) (v_done v) (v_score v) (v_streak v)
         meaning rest (Some item) cs (v_lock v) clue
         (MeaningButtons cs true) true (v_timers v).

(** [render] with a current item. *)
Definition view_render (clue : string) (v : RoundView) : RoundView :=
  mkView (v_vocab v) (v_target v) (v_done v) (v_score v) (v_streak v)
         (v_phase v) (v_queue v) (v_current v) (v_meaningChoices v) (v_lock v)
         clue
         (match v_phase v with
          | meaning => MeaningButtons (v_meaningChoices v) true
          | article_phase => ArticleButtons true
          end)
         true (v_timers v).

(** The four assignments at the head of [startRound], with the new queue. *)
Definition view_reset (q : list VocabItem) (v : RoundView) : RoundView :=
  mkView (v_vocab v) (v_target v) 0 0 0 meaning q (v_current v)
         (v_meaningChoices v) (v_lock v) (v_currentClue v) (v_buttons v)
         (v_btnNextDisabled v) (v_timers v).

Definition view_set_next (b : bool) (v : RoundView) : RoundView :=
  mkView (v_vocab v) (v_target v) (v_done v) (v_score v) (v_streak v)
         (v_phase v) (v_queue v) (v_current v) (v_meaningChoices v) (v_lock v)
         (v_currentClue v) (v_buttons v) b (v_timers v).

Definition view_timer_fired (v : RoundView) : RoundView :=
  mkView (v_vocab v) (v_target v) (v_done v) (v_score v) (v_streak v)
         (v_phase v) (v_queue v) (v_current v) (v_meaningChoices v) (v_lock v)
         (v_currentClue v) (v_buttons v) (v_btnNextDisabled v)
         (pred (v_timers v)).

Section PersistenceNotions.
Context `{JSON}.

(** What [loadStats] returns, by cases on the stored text. *)
Definition loaded_value (σ : Sys) : JsValue :=
  let ls := storage (env σ) in
  if ls_readable ls then
    match ls_data ls !! STORAGE_KEY with
    | None => empty_object
    | Some text =>
        if bool_decide (text = "") then empty_object
        else
          match JSON_parse text with
          | None => empty_object
          | Some parsed =>
              if truthy parsed && bool_decide (typeof parsed = "object")
              then parsed else empty_object
          end
    end
  else empty_object.

(** The state after [saveStats]: only the storage changes; the call is
    logged, and the data is replaced when the write succeeds. *)
Definition after_save (σ : Sys) : Sys :=
  let ls := storage (env σ) in
  let payload := JSON_stringify (stats (st σ)) in
  on_env (set_storage
    (mkStorage (ls_readable ls) (ls_writable ls)
       (if ls_writable ls then <[STORAGE_KEY := payload]> (ls_data ls)
        else ls_data ls)
       (ls_calls ls ++ [(STORAGE_KEY, payload)]))) σ.
End PersistenceNotions.

(** ** The completion discipline as a monitor

    [armed] records that the last answer taken for the current draw was a
    right answer in the meaning phase.  A new draw ([ClickNext],
    [ClickRestart]) and every answer other than a right meaning answer
    clear it; an answer that the lock rejects and a render leave it as it
    is.  The discipline is violated by a step that raises [done] while
    [armed] is false or by anything but a right article answer. *)
Section Monitor.
Context `{JSON}.

Definition right_article (e : Event) (σ : Sys) : bool :=
  match e, current (st σ) with
  | ClickArticle a, Some cur => bool_decide (a = article cur)
  | _, _ => false
  end.

Definition arm (e : Event) (σ : Sys) (armed : bool) : bool :=
  match e with
  | ClickChoice ch => if lock (st σ) then armed else isCorrect ch
  | ClickArticle _ => if lock (st σ) then armed else false
  | ClickNext | ClickRestart => false
  | TimerFires => armed
  end.

Inductive Verdict := Respected | Violated | Stuck.

Fixpoint monitor (es : list Event) (σ : Sys) (armed : bool) : Verdict :=
  match es with
  | [] => Respected
  | e :: es' =>
      match step e σ with
      | None => Stuck
      | Some σ' =>
          if bool_decide (done (st σ) < done (st σ'))
             && negb (armed && right_article e σ)
          then Violated
          else monitor es' σ' (arm e σ armed)
      end
  end.

(** A session is timely when no click is taken while a delayed render
    is still pending. *)
Fixpoint timely (es : list Event) (σ : Sys) : bool :=
  match es with
  | [] => true
  | e :: es' =>
      match e with
      | TimerFires => true
      | _ => bool_decide (timers (env σ) = 0%nat)
      end
      && match step e σ with
         | Some σ' => timely es' σ'
         | None => true
         end
  end.
End Monitor.

(** Every stored record satisfies the data-model invariant. *)
Definition stats_ok (σ : Sys) : Prop :=
  map_Forall (fun _ s => wf_stat s) (stats (st σ)).

(** A piece of code keeps the statistics well formed, whether it returns
    or throws. *)
Definition keeps {A : Type} (m : JS A) : Prop :=
  forall σ, stats_ok σ -> stats_ok (final (m σ)).

(** What timely sessions maintain: [done] is not negative, enabled
    article buttons for a current item mean the draw is armed, and so does
    a pending render. *)
Definition armed_inv (σ : Sys) (armed : bool) : Prop :=
  0 <= done (st σ)
  /\ (buttons (env σ) = ArticleButtons true -> current (st σ) <> None ->
      armed = true)
  /\ ((0 < timers (env σ))%nat -> armed = true).

(** ** Sessions *)

Definition buttons_enabled (b : Buttons) : bool :=
  match b with
  | MeaningButtons _ true | ArticleButtons true => true
  | _ => false
  end.

Section SessionNotions.
Context `{JSON}.

(** No handler of the session lets an exception escape. *)
Fixpoint quiet (es : list Event) (σ : Sys) : bool :=
  match es with
  | [] => true
  | e :: es' =>
      if enabled e σ
      then negb (threw (handler e σ)) && quiet es' (final (handler e σ))
      else true
  end.
End SessionNotions.

(** What holds in every state of a session on the catalogue [items]. *)
Definition page_inv (items : list VocabItem) (σ : Sys) : Prop :=
  vocab (st σ) = items
  /\ target (st σ) = TARGET_SETS
  /\ lock (st σ) = false
  /\ (btnNextDisabled (env σ) = false ->
      buttons_enabled (buttons (env σ)) = false)
  /\ (buttons_enabled (buttons (env σ)) = true -> current (st σ) <> None)
  /\ (items = [] -> current (st σ) = None /\ queue (st σ) = []).

(** The three kinds of state of a timely session on a catalogue of at
    least [TARGET_SETS] items: a draw is open, the draw is resolved and the
    next button is enabled, or the round is complete. *)
Definition draw_open (σ : Sys) : Prop :=
  btnNextDisabled (env σ) = true /\ current (st σ) <> None
  /\ 0 <= done (st σ)
  /\ done (st σ) + Z.of_nat (length (queue (st σ))) + 1 = TARGET_SETS.

Definition draw_resolved (σ : Sys) : Prop :=
  btnNextDisabled (env σ) = false
  /\ buttons_enabled (buttons (env σ)) = false
  /\ timers (env σ) = 0%nat
  /\ 0 <= done (st σ)
  /\ done (st σ) + Z.of_nat (length (queue (st σ))) = TARGET_SETS.

Definition round_complete (σ : Sys) : Prop :=
  btnNextDisabled (env σ) = true
  /\ buttons_enabled (buttons (env σ)) = false
  /\ timers (env σ) = 0%nat
  /\ done (st σ) = TARGET_SETS /\ queue (st σ) = [].

Definition full_round_inv (σ : Sys) : Prop :=
  target (st σ) = TARGET_SETS
  /\ (Z.to_nat TARGET_SETS <= length (vocab (st σ)))%nat
  /\ (draw_open σ \/ draw_resolved σ \/ round_complete σ).

(** [Number.MAX_SAFE_INTEGER]: on the integers up to it, [+= 1] on the
    program's numbers is exact. *)
Definition MAX_SAFE_INTEGER : Z := 2 ^ 53 - 1.

(** The counters of [s] are not negative and the answer counters are
    integers that [+= 1] still counts. *)
Definition safe_counters (s : Stat) : Prop :=
  wf_stat s
  /\ correctMeaning s <= MAX_SAFE_INTEGER
  /\ wrongMeaning s <= MAX_SAFE_INTEGER
  /\ correctArticle s <= MAX_SAFE_INTEGER
  /\ wrongArticle s <= MAX_SAFE_INTEGER.

(** No counter of [s] is above the one of [s']. *)
Definition counters_le (s s' : Stat) : Prop :=
  seen s <= seen s' /\ correctMeaning s <= correctMeaning s'
  /\ wrongMeaning s <= wrongMeaning s'
  /\ correctArticle s <= correctArticle s'
  /\ wrongArticle s <= wrongArticle s'.

(** Every record of [σ] is still there in [σ'], with counters that did
    not go down. *)
Definition grows (σ σ' : Sys) : Prop :=
  forall i s, stats (st σ) !! i = Some s ->
    exists s', stats (st σ') !! i = Some s' /\ counters_le s s'.

Definition growing {A : Type} (m : JS A) : Prop :=
  forall σ, grows σ (final (m σ)).


(** What an event does to score and streak. *)
Inductive ScoreChange := Unchanged | Hit | Miss | Reset.

Definition score_after (c : ScoreChange) (score streak : Z) : Z * Z :=
  match c with
  | Unchanged => (score, streak)
  | Hit => (score + 2, streak + 1)
  | Miss => (Z.max 0 (score - 1), 0)
  | Reset => (0, 0)
  end.

Definition score_change (e : Event) (σ : Sys) : ScoreChange :=
  match e with
  | ClickChoice ch =>
      if lock (st σ) then Unchanged
      else match current (st σ) with
           | None => Unchanged
           | Some _ => if isCorrect ch then Hit else Miss
           end
  | ClickArticle a =>
      if lock (st σ) then Unchanged
      else match current (st σ) with
           | None => Unchanged
           | Some cur => if bool_decide (a = article cur) then Hit else Miss
           end
  | ClickRestart => Reset
  | ClickNext | TimerFires => Unchanged
  end.

(** What the distractors of [item] are in any catalogue: at most two
    catalogue items other than [item], pairwise distinct by id, and fewer
    than two only when the catalogue has no further id to offer. *)
Definition distractors_ok (pool : list VocabItem) (item : VocabItem)
    (ds : list VocabItem) : Prop :=
  (length ds <= 2)%nat
  /\ NoDup (id <$> ds)
  /\ (forall d, d ∈ ds -> d ∈ pool /\ id d ≠ id item)
  /\ ((length ds < 2)%nat ->
      forall x, x ∈ pool -> id x ≠ id item -> id x ∈ id <$> ds).

(* ===================================================================== *)
(** * Sample data *)
(* ===================================================================== *)

(** A record last seen at time 1000 ms, and the time twelve hours later. *)
Definition stat_seen_at_1000 : Stat := mkStat 1 2 1 1 0 1000.
Definition twelve_hours_later : Z := 1000 + 12 * 60 * 60 * 1000.

(** A three-word catalogue. *)
Definition Hund : VocabItem :=
  mkItem "hund" "der" "Hund" "der Hund" ["tiere"] ["Er bellt."].
Definition Katze : VocabItem :=
  mkItem "katze" "die" "Katze" "die Katze" ["tiere"] ["Sie miaut."].
Definition Haus : VocabItem :=
  mkItem "haus" "das" "Haus" "das Haus" ["wohnen"] ["Man wohnt darin."].
Definition small_vocab : list VocabItem := [Hund; Katze; Haus].

(** An environment: [Math.random()] always returns 0, the clock advances
    by one second per reading, the storage is empty and writable. *)
Definition zero_rng : Rng := mkRng (fun _ => 0%Q) 0.
Definition sample_env : Env :=
  mkEnv zero_rng (fun n => 1700000000000 + 1000 * Z.of_nat n) 0
        (mkStorage true true ∅ []) NoButtons true 0.

(** Stand-ins for the JSON built-ins where a concrete run needs them: the
    serialiser lists the ids, the parser knows the empty object only. *)
Definition sample_JSON : JSON :=
  {| JSON_stringify := fun m => String.concat "," (map_to_list m).*1;
     JSON_parse := fun text =>
       if bool_decide (text = "{}") then Some (JObj []) else None |}.

(** The events of one flawless pass over an item: the right choice, the
    delayed render, the right article. *)
Definition answer_both (item : VocabItem) : list Event :=
  [ClickChoice (to_choice item item); TimerFires; ClickArticle (article item)].

(** A session on the three-word catalogue in which every answer is right. *)
Definition flawless_session : list Event :=
  answer_both Hund ++ [ClickNext] ++ answer_both Katze ++ [ClickNext]
  ++ answer_both Haus.

(** A session in which the round is restarted while the render that a
    right meaning answer scheduled is still pending: right choice, restart,
    right choice, first render, wrong article, second render, right
    article. *)
Definition stale_render_session : list Event :=
  [ClickChoice (to_choice Hund Hund); ClickRestart;
   ClickChoice (to_choice Hund Hund); TimerFires;
   ClickArticle "die"; TimerFires; ClickArticle "der"].

Definition sample_boot : Sys := @booted sample_JSON small_vocab ∅ sample_env.

(** What a test would look at after a session. *)
Definition observe (σ : Sys)
  : Z * Z * Phase * option string * list string * Buttons * bool * nat :=
  (done (st σ), target (st σ), phase (st σ), id <$> current (st σ),
   id <$> queue (st σ), buttons (env σ), btnNextDisabled (env σ),
   timers (env σ)).

Definition sample_run (es : list Event) : option Sys :=
  @run sample_JSON es sample_boot.


(** A weight function that gives every item the weight 0. *)
Definition zero_weight (x : VocabItem) (w : unit) : Q * unit := (0%Q, w).
Definition no_random (w : unit) : Q * unit := (0%Q, w).

(** A catalogue of twenty words with the ids A, B, ... *)
Definition word (n : nat) : VocabItem :=
  let name := String (Ascii.ascii_of_nat (65 + n)) "" in
  mkItem name "der" name name ["wort"] ["Ein Wort."].
Definition full_vocab : list VocabItem := word <$> seq 0 20.

(** JSON built-ins that write every statistics object as the empty object
    and read it back. *)
Definition braces_JSON : JSON :=
  {| JSON_stringify := fun _ => "{}";
     JSON_parse := fun text =>
       if bool_decide (text = "{}") then Some (JObj []) else None |}.

(** The page on the catalogue [items], booted on the sample environment,
    after a click on the restart button. *)
Definition restarted (items : list VocabItem) : Sys :=
  final (@handler sample_JSON ClickRestart
           (@booted sample_JSON items ∅ sample_env)).

(* ===================================================================== *)
(** * Theorems *)
(* ===================================================================== *)

(* --------------------------------------------------------------------- *)
(** ** The sampler *)
(* --------------------------------------------------------------------- *)

Lemma NoDup_submseteq_inv {B : Type} (l k : list B) :
  NoDup k -> l ⊆+ k -> NoDup l.
Proof.
  intros Hk Hsub. apply submseteq_Permutation in Hsub as [k' Hk'].
  rewrite Hk' in Hk. by apply NoDup_app in Hk as [? _].
Qed.

Section SamplerFacts.
Context {A W : Type}.
Variable weightFn : A -> W -> Q * W.
Variable random : W -> Q * W.

Lemma map_weights_length (pool : list A) (w : W) :
  length (map_weights weightFn pool w).1 = length pool.
Proof.
  revert w. induction pool as [|x rest IH]; intros w; simpl; [done|].
  destruct (weightFn x w) as [q w1]. specialize (IH w1).
  destruct (map_weights weightFn rest w1) as [qs w2]. simpl in *. lia.
Qed.

(** Every pass of the loop body moves exactly one element of the pool to
    the end of [picked]. *)
Lemma draw_step_moves_one (x : A) (rest picked : list A) (w : W) :
  exists c pool',
    (draw_step weightFn random x rest picked w).1 = (pool', picked ++ [c])
    /\ x :: rest ≡ₚ c :: pool'.
Proof.
  unfold draw_step.
  destruct (map_weights weightFn (x :: rest) w) as [weights w1].
  destruct (Qle_bool (clamped_sum weights) 0).
  - exists x, rest. by split.
  - destruct (random w1) as [u w2].
    set (i := Nat.min _ _).
    assert (Hi : (i < length (x :: rest))%nat) by (subst i; simpl; lia).
    destruct (lookup_lt_is_Some_2 _ _ Hi) as [c Hc].
    unfold splice1. rewrite Hc. simpl.
    exists c, (take i (x :: rest) ++ drop (S i) (x :: rest)). split; [done|].
    rewrite <- delete_take_drop. by apply delete_Permutation.
Qed.

Lemma pick_loop_selects (n : nat) (pool picked : list A) (w : W) :
  exists sel,
    (pick_loop weightFn random n pool picked w).1 = picked ++ sel
    /\ sel ⊆+ pool
    /\ length sel = Nat.min n (length pool).
Proof.
  revert pool picked w. induction n as [|n IH]; intros pool picked w; simpl.
  - exists []. rewrite app_nil_r. split; [done|]. split; [|done].
    apply submseteq_nil_l.
  - destruct pool as [|x rest]; simpl.
    + exists []. rewrite app_nil_r. split; [done|]. by split.
    + destruct (draw_step_moves_one x rest picked w) as (c & pool' & Hstep & Hperm).
      destruct (draw_step weightFn random x rest picked w) as [[p1 p2] w'].
      simpl in Hstep. injection Hstep as -> ->.
      destruct (IH pool' (picked ++ [c]) w') as (sel & Hsel & Hsub & Hlen).
      exists (c :: sel). rewrite Hsel, <- app_assoc. split; [done|]. split.
      * rewrite Hperm. by apply submseteq_skip.
      * apply Permutation_length in Hperm. simpl in *. lia.
Qed.
End SamplerFacts.

(** C1.  For a pool with pairwise-distinct ids, any integer [k], any
    weight function and any random source, [pickWeightedUnique] returns
    exactly [min(max(k,0), length pool)] items, pairwise distinct by id and
    all drawn from the pool; an empty pool and [k <= 0] both give the empty
    result. *)
Theorem pickWeightedUnique_distinct
    {W : Type} (weightFn : VocabItem -> W -> Q * W) (random : W -> Q * W)
    (pool : list VocabItem) (k : Z) (w : W) :
  NoDup (id <$> pool) ->
  let picked := (pickWeightedUnique weightFn random pool k w).1 in
  length picked = Z.to_nat (Z.min (Z.max k 0) (Z.of_nat (length pool)))
  /\ NoDup (id <$> picked)
  /\ (forall x, x ∈ picked -> x ∈ pool)
  /\ picked ⊆+ pool
  /\ (pool = [] -> picked = [])
  /\ (k <= 0 -> picked = []).
Proof.
  intros Hnd picked. subst picked. unfold pickWeightedUnique.
  destruct (pick_loop_selects weightFn random (Z.to_nat k) pool [] w)
    as (sel & -> & Hsub & Hlen).
  simpl. split; [lia|]. split.
  { eapply NoDup_submseteq_inv; [exact Hnd|]. by apply fmap_submseteq. }
  split. { intros x Hx. eapply elem_of_submseteq; eauto. }
  split; [done|]. split.
  - intros ->. destruct sel; [done|]. simpl in Hlen. lia.
  - intros Hk. destruct sel; [done|]. simpl in Hlen. lia.
Qed.

(** C7.  A draw step in which the clamped weights of the remaining
    candidates sum to at most 0 removes the first remaining candidate and
    appends it to the result; the step is defined on every non-empty pool
    and draws no random number. *)
Theorem draw_step_degenerate
    {A W : Type} (weightFn : A -> W -> Q * W) (random : W -> Q * W)
    (x : A) (rest picked : list A) (w : W) :
  (clamped_sum (map_weights weightFn (x :: rest) w).1 <= 0)%Q ->
  draw_step weightFn random x rest picked w
    = (rest, picked ++ [x], (map_weights weightFn (x :: rest) w).2)
  /\ forall n,
      pick_loop weightFn random (S n) (x :: rest) picked w
      = pick_loop weightFn random n rest (picked ++ [x])
          (map_weights weightFn (x :: rest) w).2.
Proof.
  intros Hsum.
  assert (Hstep : draw_step weightFn random x rest picked w
    = (rest, picked ++ [x], (map_weights weightFn (x :: rest) w).2)).
  { unfold draw_step.
    destruct (map_weights weightFn (x :: rest) w) as [weights w1].
    simpl in *. apply Qle_bool_iff in Hsum. by rewrite Hsum. }
  split; [exact Hstep|].
  intros n. simpl pick_loop. by rewrite Hstep.
Qed.

(* --------------------------------------------------------------------- *)
(** ** The requeue policy *)
(* --------------------------------------------------------------------- *)

Lemma afterN_clamp (w : Z) : afterN w = clamp (6 - w / 2) 2 6.
Proof.
  unfold afterN, clamp.
  destruct (Z.ltb_spec (6 - w / 2) 2), (Z.ltb_spec 6 (6 - w / 2)); lia.
Qed.

Lemma afterN_range (w : Z) : 2 <= afterN w <= 6.
Proof. unfold afterN. lia. Qed.

Lemma afterN_antitone (w w' : Z) : w <= w' -> afterN w' <= afterN w.
Proof.
  intros Hw. unfold afterN.
  assert (w / 2 <= w' / 2) by (apply Z.div_le_mono; lia). lia.
Qed.

Lemma ensureStat_queue (i : string) (σ : Sys) :
  queue (st (ensureStat i σ).2) = queue (st σ).
Proof. unfold ensureStat. by destruct (stats (st σ) !! i). Qed.

(** C2.  After an incorrect answer the requeue offset for wrong count
    [w >= 0] is [clamp(6 - floor(w/2), 2, 6)]: an integer in [2,6],
    non-increasing in [w] (6 at 0, 4 at 4, 2 at 10); the current item is
    spliced into the queue at index [min(offset, queue length)], which is
    never past the end of the queue. *)
Theorem requeue_offset_and_position (σ : Sys) (item : VocabItem) :
  current (st σ) = Some item ->
  let s := (ensureStat (id item) σ).1 in
  let w := wrongMeaning s + wrongArticle s in
  let q := queue (st σ) in
  let pos := Z.to_nat (Z.min (afterN w) (Z.of_nat (length q))) in
  0 <= w ->
  afterN w = clamp (6 - w / 2) 2 6
  /\ 2 <= afterN w <= 6
  /\ (forall w', w <= w' -> afterN w' <= afterN w)
  /\ afterN 0 = 6 /\ afterN 4 = 4 /\ afterN 10 = 2
  /\ queue (st (requeueCurrentAdaptive σ)) = take pos q ++ item :: drop pos q
  /\ (pos <= length q)%nat
  /\ queue (st (requeueCurrentAdaptive σ)) !! pos = Some item.
Proof.
  intros Hcur s w q pos Hw.
  split; [apply afterN_clamp|]. split; [apply afterN_range|].
  split; [intros w'; apply afterN_antitone|].
  do 3 (split; [reflexivity|]).
  assert (Hpos : (pos <= length q)%nat) by (subst pos; lia).
  assert (Hq : queue (st (requeueCurrentAdaptive σ))
               = take pos q ++ item :: drop pos q).
  { unfold requeueCurrentAdaptive. rewrite Hcur.
    pose proof (ensureStat_queue (id item) σ) as Hsame.
    subst pos w s q. destruct (ensureStat (id item) σ) as [s' σ1].
    simpl in *. rewrite Hsame. unfold splice_in. by rewrite Z.min_comm. }
  split; [exact Hq|]. split; [exact Hpos|].
  rewrite Hq. rewrite lookup_app_r by (rewrite length_take; lia).
  rewrite length_take. replace (pos - pos `min` length q)%nat with O by lia.
  done.
Qed.

(* --------------------------------------------------------------------- *)
(** ** The weight function *)
(* --------------------------------------------------------------------- *)




Lemma recencyFactor_unset (now : Z) (s : Stat) :
  lastSeenAt s = 0 -> recencyFactor now s = 1%Q.
Proof. intros Hz. unfold recencyFactor. by rewrite Hz. Qed.

Lemma recencyFactor_old (now : Z) (s : Stat) :
  (RECENT_PENALTY_HOURS <= age_hours now s)%Q -> recencyFactor now s = 1%Q.
Proof.
  intros Hage. unfold recencyFactor. destruct (lastSeenAt s =? 0); [done|].
  apply Qle_bool_iff in Hage. unfold age_hours in Hage. by rewrite Hage.
Qed.

Lemma recencyFactor_recent (now : Z) (s : Stat) :
  lastSeenAt s <> 0 ->
  (age_hours now s < RECENT_PENALTY_HOURS)%Q ->
  recencyFactor now s
  = Qmax RECENT_MIN_FACTOR (age_hours now s / RECENT_PENALTY_HOURS).
Proof.
  intros Hset Hage. unfold recencyFactor.
  destruct (Z.eqb_spec (lastSeenAt s) 0); [done|].
  fold (age_hours now s).
  destruct (Qle_bool RECENT_PENALTY_HOURS (age_hours now s)) eqn:Hle; [|done].
  apply Qle_bool_iff in Hle. lra.
Qed.

Lemma recencyFactor_range (now : Z) (s : Stat) :
  (RECENT_MIN_FACTOR <= recencyFactor now s)%Q
  /\ (recencyFactor now s <= 1)%Q.
Proof.
  unfold recencyFactor. destruct (lastSeenAt s =? 0); [by split|].
  fold (age_hours now s).
  destruct (Qle_bool RECENT_PENALTY_HOURS (age_hours now s)) eqn:Hle;
    [by split|].
  assert (Hlt : (age_hours now s < RECENT_PENALTY_HOURS)%Q).
  { apply Qnot_le_lt. intros Hc. apply Qle_bool_iff in Hc. congruence. }
  split; [apply Q.le_max_l|].
  apply Q.max_lub; [done|].
  apply Qle_shift_div_r; [done|]. lra.
Qed.



Lemma ensureStat_env (i : string) (σ : Sys) :
  env (ensureStat i σ).2 = env σ.
Proof. unfold ensureStat. by destruct (stats (st σ) !! i). Qed.








(* --------------------------------------------------------------------- *)
(** ** Statistics persistence *)
(* --------------------------------------------------------------------- *)

Ltac unfold_js :=
  unfold mbind, JS_bind, mret, JS_ret, try_catch, throw, lift, update, read
    in *.

Section PersistenceFacts.
Context `{JSON}.

Lemma loadStats_total (σ : Sys) :
  loadStats σ = Normal (loaded_value σ) σ.
Proof.
  unfold loadStats, loaded_value, getItem. unfold_js.
  destruct (ls_readable (storage (env σ))); [|done].
  destruct (ls_data (storage (env σ)) !! STORAGE_KEY) as [text|]; [|done].
  destruct (bool_decide (text = "")); [done|].
  by destruct (JSON_parse text).
Qed.

Lemma saveStats_total (σ : Sys) : saveStats σ = Normal tt (after_save σ).
Proof.
  unfold saveStats, after_save, setItem. unfold_js.
  by destruct (ls_writable (storage (env σ))).
Qed.

Lemma recordSeen_total (i : string) (σ : Sys) :
  exists σ', recordSeen i σ = Normal tt (after_save σ')
    /\ env σ' = set_clock_pos (S (clock_pos (env σ))) (env σ)
    /\ exists s, stats (st σ') = <[i := s]> (stats (st σ)).
Proof.
  unfold recordSeen. unfold_js.
  pose proof (ensureStat_env i σ) as Henv.
  assert (Hst : stats (st (ensureStat i σ).2) = stats (st σ)
                \/ stats (st (ensureStat i σ).2)
                   = <[i := defaultStat]> (stats (st σ))).
  { unfold ensureStat. destruct (stats (st σ) !! i); simpl; auto. }
  destruct (ensureStat i σ) as [s σ1]. simpl in *.
  unfold Date_now. simpl. rewrite saveStats_total.
  eexists. split; [reflexivity|]. simpl. rewrite Henv. split; [done|].
  eexists. destruct Hst as [-> | ->]; [done|]. by rewrite insert_insert_eq.
Qed.

Lemma recordResult_total (i : string) (ph : Phase) (c : bool) (σ : Sys) :
  exists σ', recordResult i ph c σ = Normal tt (after_save σ')
    /\ env σ' = env σ
    /\ exists s, stats (st σ') = <[i := s]> (stats (st σ)).
Proof.
  unfold recordResult. unfold_js.
  pose proof (ensureStat_env i σ) as Henv.
  assert (Hst : stats (st (ensureStat i σ).2) = stats (st σ)
                \/ stats (st (ensureStat i σ).2)
                   = <[i := defaultStat]> (stats (st σ))).
  { unfold ensureStat. destruct (stats (st σ) !! i); simpl; auto. }
  destruct (ensureStat i σ) as [s σ1]. simpl in *.
  rewrite saveStats_total.
  eexists. split; [reflexivity|]. simpl. split; [done|].
  eexists. destruct Hst as [-> | ->]; [done|]. by rewrite insert_insert_eq.
Qed.
End PersistenceFacts.

(** C9.  [loadStats] never throws and returns the empty mapping when the
    storage cannot be read, the value is missing, is not valid JSON, is
    not an object (in the sense of the code's test, [typeof]: an array
    counts as an object) or is [null]; [saveStats] never throws, whether or
    not the write succeeds; and [recordSeen] and [recordResult] each end
    with exactly one [setItem] call that carries the statistics as just
    changed. *)
Theorem persistence_is_non_fatal `{JSON}
    (σ : Sys) (i : string) (ph : Phase) (c : bool) :
  let ls := storage (env σ) in
  (exists v, loadStats σ = Normal v σ
     /\ (ls_readable ls = false -> v = empty_object)
     /\ (ls_data ls !! STORAGE_KEY = None -> v = empty_object)
     /\ (forall text, ls_data ls !! STORAGE_KEY = Some text ->
           JSON_parse text = None -> v = empty_object)
     /\ (forall text parsed, ls_data ls !! STORAGE_KEY = Some text ->
           JSON_parse text = Some parsed ->
           typeof parsed <> "object" -> v = empty_object)
     /\ (forall text parsed, ls_data ls !! STORAGE_KEY = Some text ->
           JSON_parse text = Some parsed ->
           truthy parsed = false -> v = empty_object))
  /\ (exists σ', saveStats σ = Normal tt σ' /\ st σ' = st σ)
  /\ (exists σ', recordSeen i σ = Normal tt σ'
        /\ ls_calls (storage (env σ'))
           = ls_calls ls ++ [(STORAGE_KEY, JSON_stringify (stats (st σ')))]
        /\ (ls_writable ls = true ->
            ls_data (storage (env σ')) !! STORAGE_KEY
            = Some (JSON_stringify (stats (st σ')))))
  /\ (exists σ', recordResult i ph c σ = Normal tt σ'
        /\ ls_calls (storage (env σ'))
           = ls_calls ls ++ [(STORAGE_KEY, JSON_stringify (stats (st σ')))]
        /\ (ls_writable ls = true ->
            ls_data (storage (env σ')) !! STORAGE_KEY
            = Some (JSON_stringify (stats (st σ'))))).
Proof.
  intros ls. split.
  { exists (loaded_value σ). split; [apply loadStats_total|].
    unfold loaded_value. fold ls. split; [by intros ->|].
    split. { intros ->. by destruct (ls_readable ls). }
    split.
    { intros text -> ->. destruct (ls_readable ls); [|done].
      by destruct (bool_decide (text = "")). }
    split.
    - intros text parsed -> -> Hty. destruct (ls_readable ls); [|done].
      destruct (bool_decide (text = "")); [done|].
      rewrite (bool_decide_eq_false_2 _ Hty). by rewrite andb_false_r.
    - intros text parsed -> -> Hfalsy. destruct (ls_readable ls); [|done].
      destruct (bool_decide (text = "")); [done|]. by rewrite Hfalsy. }
  split. { exists (after_save σ). split; [apply saveStats_total|done]. }
  split.
  - destruct (recordSeen_total i σ) as (σ' & Hrun & Henv & _).
    exists (after_save σ'). split; [exact Hrun|].
    unfold after_save. simpl. rewrite Henv. simpl. fold ls.
    split; [done|]. intros ->. by rewrite lookup_insert_eq.
  - destruct (recordResult_total i ph c σ) as (σ' & Hrun & Henv & _).
    exists (after_save σ'). split; [exact Hrun|].
    unfold after_save. simpl. rewrite Henv. fold ls.
    split; [done|]. intros ->. by rewrite lookup_insert_eq.
Qed.


(* --------------------------------------------------------------------- *)
(** ** Frame facts: what the helper functions leave alone *)
(* --------------------------------------------------------------------- *)

Lemma ensureStat_view (i : string) (σ : Sys) :
  round_view (ensureStat i σ).2 = round_view σ.
Proof. unfold ensureStat. by destruct (stats (st σ) !! i). Qed.

Lemma Math_random_view (σ : Sys) : round_view (Math_random σ).2 = round_view σ.
Proof. done. Qed.

Lemma itemWeight_view (item : VocabItem) (σ : Sys) :
  round_view (itemWeight item σ).2 = round_view σ.
Proof.
  unfold itemWeight. pose proof (ensureStat_view (id item) σ) as Hv.
  destruct (ensureStat (id item) σ) as [s σ1]. simpl in Hv.
  unfold recencyFactorS. by destruct (lastSeenAt s =? 0).
Qed.

Section SamplerFrame.
Context {A W V : Type}.
Variable weightFn : A -> W -> Q * W.
Variable random : W -> Q * W.
Variable view : W -> V.
Hypothesis weightFn_view : forall x w, view (weightFn x w).2 = view w.
Hypothesis random_view : forall w, view (random w).2 = view w.

Lemma map_weights_frame (pool : list A) (w : W) :
  view (map_weights weightFn pool w).2 = view w.
Proof.
  revert w. induction pool as [|x rest IH]; intros w; simpl; [done|].
  pose proof (weightFn_view x w) as Hx.
  destruct (weightFn x w) as [q w1]. simpl in Hx. specialize (IH w1).
  destruct (map_weights weightFn rest w1) as [qs w2]. simpl in *. congruence.
Qed.

Lemma draw_step_frame (x : A) (rest picked : list A) (w : W) :
  view (draw_step weightFn random x rest picked w).2 = view w.
Proof.
  unfold draw_step. pose proof (map_weights_frame (x :: rest) w) as Hm.
  destruct (map_weights weightFn (x :: rest) w) as [weights w1].
  simpl in Hm. destruct (Qle_bool _ _); [done|].
  pose proof (random_view w1) as Hr. destruct (random w1) as [u w2].
  simpl in Hr. unfold splice1.
  destruct (_ !! _); simpl; congruence.
Qed.

Lemma pick_loop_frame (n : nat) (pool picked : list A) (w : W) :
  view (pick_loop weightFn random n pool picked w).2 = view w.
Proof.
  revert pool picked w. induction n as [|n IH]; intros pool picked w;
    simpl; [done|].
  destruct pool as [|x rest]; [done|].
  pose proof (draw_step_frame x rest picked w) as Hd.
  destruct (draw_step weightFn random x rest picked w) as [[p1 p2] w'].
  simpl in Hd. rewrite IH. exact Hd.
Qed.
End SamplerFrame.

Lemma shuffleS_view {A : Type} (arr : list A) (σ : Sys) :
  round_view (shuffleS arr σ).2 = round_view σ.
Proof. unfold shuffleS. by destruct (shuffle arr (rng (env σ))). Qed.

Lemma buildMeaningChoices_view (item : VocabItem) (σ : Sys) :
  round_view (buildMeaningChoices item σ).2 = round_view σ.
Proof.
  unfold buildMeaningChoices. by destruct (buildMeaningChoices_on _ _ _).
Qed.

Lemma ensure_all_view (items : list VocabItem) (σ : Sys) :
  round_view (ensure_all items σ) = round_view σ.
Proof.
  unfold ensure_all. revert σ.
  induction items as [|x rest IH]; intros σ; simpl; [done|].
  rewrite IH. apply ensureStat_view.
Qed.

Lemma buildRoundQueue_view (σ : Sys) :
  round_view (buildRoundQueue σ).2 = round_view σ.
Proof.
  unfold buildRoundQueue, pickWeightedUnique.
  pose proof (pick_loop_frame itemWeight Math_random round_view
                itemWeight_view Math_random_view (Z.to_nat TARGET_SETS)
                (vocab (st (ensure_all (vocab (st σ)) σ))) []
                (ensure_all (vocab (st σ)) σ)) as Hp.
  destruct (pick_loop _ _ _ _ _ _) as [picked σ2]. simpl in Hp.
  rewrite ensure_all_view in Hp.
  destruct picked; [|done].
  pose proof (shuffleS_view (vocab (st σ2)) σ2) as Hs.
  destruct (shuffleS _ σ2) as [sh σ3]. simpl in *. congruence.
Qed.

Section RoundFrame.
Context `{JSON}.

Lemma after_save_view (σ : Sys) : round_view (after_save σ) = round_view σ.
Proof. done. Qed.

Lemma recordResult_view (i : string) (ph : Phase) (c : bool) (σ : Sys) :
  exists σ', recordResult i ph c σ = Normal tt σ'
             /\ round_view σ' = round_view σ.
Proof.
  unfold recordResult. unfold_js.
  pose proof (ensureStat_view i σ) as Hv.
  destruct (ensureStat i σ) as [s σ1]. simpl in *.
  rewrite saveStats_total. eexists. split; [reflexivity|].
  rewrite after_save_view. rewrite <- Hv. done.
Qed.

Lemma recordSeen_view (i : string) (σ : Sys) :
  exists σ', recordSeen i σ = Normal tt σ' /\ round_view σ' = round_view σ.
Proof.
  unfold recordSeen. unfold_js.
  pose proof (ensureStat_view i σ) as Hv.
  destruct (ensureStat i σ) as [s σ1]. simpl in *.
  rewrite saveStats_total. eexists. split; [reflexivity|].
  rewrite after_save_view. rewrite <- Hv. done.
Qed.
End RoundFrame.

(* --------------------------------------------------------------------- *)
(** ** What each handler does to the round view *)
(* --------------------------------------------------------------------- *)

Lemma requeue_view (σ : Sys) (item : VocabItem) :
  current (st σ) = Some item ->
  exists pos,
    round_view (requeueCurrentAdaptive σ)
    = mkView (vocab (st σ)) (target (st σ)) (done (st σ)) (score (st σ))
        (streak (st σ)) (phase (st σ)) (splice_in pos item (queue (st σ)))
        (current (st σ)) (meaningChoices (st σ)) (lock (st σ))
        (currentClue (st σ)) (buttons (env σ)) (btnNextDisabled (env σ))
        (timers (env σ))
    /\ (pos <= length (queue (st σ)))%nat.
Proof.
  intros Hcur. unfold requeueCurrentAdaptive. rewrite Hcur.
  pose proof (ensureStat_view (id item) σ) as Hv.
  destruct (ensureStat (id item) σ) as [s σ1]. simpl in Hv.
  injection Hv as Hvo Hta Hdo Hsc Hsk Hph Hqu Hcu Hmc Hlo Hcl Hbu Hbn Hti.
  exists (Z.to_nat (Z.min (Z.of_nat (length (queue (st σ))))
                          (afterN (wrongMeaning s + wrongArticle s)))).
  split; [|lia].
  unfold round_view. simpl. congruence.
Qed.

Lemma render_view (σ : Sys) :
  round_view (render σ)
  = match current (st σ) with
    | None => view_set_next true (round_view σ)
    | Some _ =>
        view_render (currentClue (st (render σ))) (round_view σ)
    end.
Proof.
  unfold render. simpl. destruct (current (st σ)) as [item|]; [|done].
  destruct (bool_decide (currentClue (st σ) = ""));
    unfold pick_clue, Math_random; simpl;
    destruct (phase (st σ)) eqn:Hph;
    unfold view_render, round_view; simpl; by rewrite Hph.
Qed.

Section HandlerViews.
Context `{JSON}.

Lemma onMeaningAnswer_locked (ch : Choice) (σ : Sys) :
  lock (st σ) = true -> onMeaningAnswer ch σ = Normal tt σ.
Proof. intros Hl. unfold onMeaningAnswer. unfold_js. by rewrite Hl. Qed.

Lemma onArticleAnswer_locked (a : string) (σ : Sys) :
  lock (st σ) = true -> onArticleAnswer a σ = Normal tt σ.
Proof. intros Hl. unfold onArticleAnswer. unfold_js. by rewrite Hl. Qed.

Lemma onMeaningAnswer_no_item (ch : Choice) (σ : Sys) :
  lock (st σ) = false -> current (st σ) = None ->
  threw (onMeaningAnswer ch σ) = true
  /\ round_view (final (onMeaningAnswer ch σ)) = view_locked (round_view σ).
Proof.
  intros Hl Hc. unfold onMeaningAnswer, current_item. unfold_js.
  rewrite Hl. simpl. rewrite Hc. by split.
Qed.

Lemma onArticleAnswer_no_item (a : string) (σ : Sys) :
  lock (st σ) = false -> current (st σ) = None ->
  threw (onArticleAnswer a σ) = true
  /\ round_view (final (onArticleAnswer a σ)) = view_locked (round_view σ).
Proof.
  intros Hl Hc. unfold onArticleAnswer, current_item. unfold_js.
  rewrite Hl. simpl. rewrite Hc. by split.
Qed.
End HandlerViews.

Ltac view_fields Hv :=
  unfold round_view in Hv; simpl in Hv;
  injection Hv as ? ? ? ? ? ? ? ? ? ? ? ? ? ?.

Section AnswerViews.
Context `{JSON}.

Lemma onMeaningAnswer_view (ch : Choice) (σ : Sys) (cur : VocabItem) :
  lock (st σ) = false -> current (st σ) = Some cur ->
  exists σ' pos,
    onMeaningAnswer ch σ = Normal tt σ'
    /\ (pos <= length (queue (st σ)))%nat
    /\ round_view σ'
       = if isCorrect ch then view_meaning_hit (round_view σ)
         else view_miss pos cur (round_view σ).
Proof.
  intros Hl Hc. unfold onMeaningAnswer, current_item. unfold_js.
  rewrite Hl. simpl. rewrite Hc.
  destruct (recordResult_view (id cur) meaning (isCorrect ch)
              (disableChoices (on_state (set_lock true) σ)))
    as (σ1 & Hrun & Hv).
  rewrite Hrun. view_fields Hv.
  destruct (isCorrect ch).
  - eexists _, O. split; [reflexivity|]. split; [lia|].
    unfold round_view, view_meaning_hit, disabled. simpl. congruence.
  - set (σ2 := on_state (set_streak 0)
                 (on_state (fun t => set_score (Z.max 0 (score t - 1)) t) σ1)).
    destruct (requeue_view σ2 cur) as (pos & Hq & Hpos).
    { subst σ2. simpl. congruence. }
    exists (on_state (set_lock false)
              (on_env (set_btnNextDisabled false)
                 (requeueCurrentAdaptive σ2))), pos.
    split; [reflexivity|]. split; [subst σ2; simpl in *; congruence|].
    view_fields Hq. subst σ2. simpl in *.
    unfold round_view, view_miss, disabled. simpl. congruence.
Qed.

Lemma onArticleAnswer_view (a : string) (σ : Sys) (cur : VocabItem) :
  lock (st σ) = false -> current (st σ) = Some cur ->
  exists σ' pos,
    onArticleAnswer a σ = Normal tt σ'
    /\ (pos <= length (queue (st σ)))%nat
    /\ round_view σ'
       = if bool_decide (a = article cur)
         then view_article_hit (round_view σ)
         else view_miss pos cur (round_view σ).
Proof.
  intros Hl Hc. unfold onArticleAnswer, current_item. unfold_js.
  rewrite Hl. simpl. rewrite Hc.
  destruct (recordResult_view (id cur) article_phase
              (bool_decide (a = article cur))
              (disableChoices (on_state (set_lock true) σ)))
    as (σ1 & Hrun & Hv).
  rewrite Hrun. view_fields Hv.
  destruct (bool_decide (a = article cur)).
  - eexists _, O. split; [reflexivity|]. split; [lia|].
    unfold round_view, view_article_hit, disabled. simpl. congruence.
  - set (σ2 := on_state (set_streak 0)
                 (on_state (fun t => set_score (Z.max 0 (score t - 1)) t) σ1)).
    destruct (requeue_view σ2 cur) as (pos & Hq & Hpos).
    { subst σ2. simpl. congruence. }
    exists (on_state (set_lock false)
              (on_env (set_btnNextDisabled false)
                 (requeueCurrentAdaptive σ2))), pos.
    split; [reflexivity|]. split; [subst σ2; simpl in *; congruence|].
    view_fields Hq. subst σ2. simpl in *.
    unfold round_view, view_miss, disabled. simpl. congruence.
Qed.
End AnswerViews.

Section RoundViews.
Context `{JSON}.

Lemma nextItem_complete (σ : Sys) :
  target (st σ) <= done (st σ) ->
  exists σ', nextItem σ = Normal tt σ'
             /\ round_view σ' = view_complete (round_view σ).
Proof.
  intros Hd. unfold nextItem. unfold_js.
  destruct (decide (target (st σ) <= done (st σ))); [|lia].
  eexists. split; reflexivity.
Qed.

Lemma nextItem_underflow (σ : Sys) :
  done (st σ) < target (st σ) -> queue (st σ) = [] ->
  threw (nextItem σ) = true
  /\ round_view (final (nextItem σ)) = view_underflow (round_view σ).
Proof.
  intros Hd Hq. unfold nextItem, current_item. unfold_js.
  destruct (decide (target (st σ) <= done (st σ))); [lia|].
  simpl. rewrite Hq. simpl. split; [done|].
  unfold round_view, view_underflow. simpl. by rewrite Hq.
Qed.

Lemma nextItem_draw (σ : Sys) (x : VocabItem) (rest : list VocabItem) :
  done (st σ) < target (st σ) -> queue (st σ) = x :: rest ->
  exists σ' cs clue,
    nextItem σ = Normal tt σ'
    /\ round_view σ' = view_draw x rest cs clue (round_view σ).
Proof.
  intros Hd Hq. unfold nextItem, current_item. unfold_js.
  destruct (decide (target (st σ) <= done (st σ))); [lia|].
  simpl. rewrite Hq. simpl.
  set (σa := on_state (set_currentClue "")
               (on_state shift_queue (on_state (set_phase meaning) σ))).
  destruct (recordSeen_view (id x) σa) as (σ1 & Hrun & Hv1).
  rewrite Hrun.
  pose proof (buildMeaningChoices_view x σ1) as Hv2.
  destruct (buildMeaningChoices x σ1) as [cs σ2]. simpl in Hv2.
  set (σ3 := on_state (set_meaningChoices cs) σ2).
  exists (render σ3), cs, (currentClue (st (render σ3))).
  split; [reflexivity|].
  rewrite Hv1 in Hv2. subst σa. view_fields Hv2. rewrite Hq in *.
  rewrite render_view. subst σ3. simpl in *.
  replace (current (st σ2)) with (Some x) by done.
  unfold view_render, view_draw, round_view. simpl.
  replace (phase (st σ2)) with meaning by done.
  congruence.
Qed.

Lemma startRound_view (σ : Sys) :
  exists q σ1,
    round_view σ1 = view_reset q (round_view σ)
    /\ startRound σ = nextItem σ1.
Proof.
  unfold startRound. unfold_js. simpl.
  set (σa := on_state (set_phase meaning) _).
  pose proof (buildRoundQueue_view σa) as Hv.
  destruct (buildRoundQueue σa) as [q σb]. simpl in Hv.
  exists q, (on_state (set_queue q) σb). split; [|done].
  subst σa. view_fields Hv.
  unfold round_view, view_reset. simpl. congruence.
Qed.
End RoundViews.

(* --------------------------------------------------------------------- *)
(** ** The score *)
(* --------------------------------------------------------------------- *)

Section Score.
Context `{JSON}.

Lemma nextItem_cases (σ : Sys) :
  round_view (final (nextItem σ)) = view_complete (round_view σ)
  \/ round_view (final (nextItem σ)) = view_underflow (round_view σ)
  \/ exists x rest cs clue,
       queue (st σ) = x :: rest
       /\ round_view (final (nextItem σ))
          = view_draw x rest cs clue (round_view σ).
Proof.
  destruct (decide (target (st σ) <= done (st σ))) as [Hd|Hd].
  - left. destruct (nextItem_complete σ Hd) as (σ' & -> & Hv). exact Hv.
  - destruct (queue (st σ)) as [|x rest] eqn:Hq.
    + right; left. by apply nextItem_underflow; [lia|].
    + right; right.
      destruct (nextItem_draw σ x rest) as (σ' & cs & clue & -> & Hv);
        [lia|done|].
      by exists x, rest, cs, clue.
Qed.

Lemma nextItem_score (σ : Sys) :
  score (st (final (nextItem σ))) = score (st σ).
Proof.
  destruct (nextItem_cases σ) as [Hv|[Hv|(x & rest & cs & clue & _ & Hv)]];
    apply (f_equal v_score) in Hv; exact Hv.
Qed.

Lemma startRound_score (σ : Sys) : score (st (final (startRound σ))) = 0.
Proof.
  destruct (startRound_view σ) as (q & σ1 & Hv & ->).
  rewrite nextItem_score. by apply (f_equal v_score) in Hv.
Qed.

Lemma onMeaningAnswer_score (ch : Choice) (σ : Sys) :
  score (st (final (onMeaningAnswer ch σ)))
  = if lock (st σ) then score (st σ)
    else match current (st σ) with
         | None => score (st σ)
         | Some _ =>
             if isCorrect ch then score (st σ) + 2
             else Z.max 0 (score (st σ) - 1)
         end.
Proof.
  destruct (lock (st σ)) eqn:Hl.
  { by rewrite onMeaningAnswer_locked. }
  destruct (current (st σ)) as [cur|] eqn:Hc.
  - destruct (onMeaningAnswer_view ch σ cur Hl Hc) as (σ' & pos & -> & _ & Hv).
    apply (f_equal v_score) in Hv. simpl in *. rewrite Hv.
    by destruct (isCorrect ch).
  - destruct (onMeaningAnswer_no_item ch σ Hl Hc) as [_ Hv].
    by apply (f_equal v_score) in Hv.
Qed.

Lemma onArticleAnswer_score (a : string) (σ : Sys) :
  score (st (final (onArticleAnswer a σ)))
  = if lock (st σ) then score (st σ)
    else match current (st σ) with
         | None => score (st σ)
         | Some cur =>
             if bool_decide (a = article cur) then score (st σ) + 2
             else Z.max 0 (score (st σ) - 1)
         end.
Proof.
  destruct (lock (st σ)) eqn:Hl.
  { by rewrite onArticleAnswer_locked. }
  destruct (current (st σ)) as [cur|] eqn:Hc.
  - destruct (onArticleAnswer_view a σ cur Hl Hc) as (σ' & pos & -> & _ & Hv).
    apply (f_equal v_score) in Hv. simpl in *. rewrite Hv.
    by destruct (bool_decide (a = article cur)).
  - destruct (onArticleAnswer_no_item a σ Hl Hc) as [_ Hv].
    by apply (f_equal v_score) in Hv.
Qed.

Lemma render_score (σ : Sys) : score (st (render σ)) = score (st σ).
Proof.
  pose proof (render_view σ) as Hv. apply (f_equal v_score) in Hv.
  by destruct (current (st σ)).
Qed.

Lemma step_score (e : Event) (σ σ' : Sys) :
  step e σ = Some σ' -> 0 <= score (st σ) -> 0 <= score (st σ').
Proof.
  unfold step. destruct (enabled e σ); [|done]. intros [= <-] Hs.
  destruct e as [ch|a| | |]; simpl.
  - rewrite onMeaningAnswer_score.
    destruct (lock (st σ)), (current (st σ)), (isCorrect ch); lia.
  - rewrite onArticleAnswer_score.
    destruct (lock (st σ)); [done|].
    destruct (current (st σ)) as [cur|]; [|done].
    destruct (bool_decide (a = article cur)); lia.
  - unfold_js. by rewrite nextItem_score.
  - rewrite startRound_score. lia.
  - unfold_js. simpl. by rewrite render_score.
Qed.
End Score.

(** C10.  The score is never negative: a round starts at score 0, a right
    answer adds 2, a wrong answer sets the score to [max(0, score - 1)],
    and no other event changes it below 0. *)
Theorem score_never_negative `{JSON} (σ : Sys) :
  reachable σ ->
  0 <= score (st σ)
  /\ score (st (final (startRound σ))) = 0
  /\ (forall ch,
        score (st (final (onMeaningAnswer ch σ)))
        = if lock (st σ) then score (st σ)
          else match current (st σ) with
               | None => score (st σ)
               | Some _ =>
                   if isCorrect ch then score (st σ) + 2
                   else Z.max 0 (score (st σ) - 1)
               end)
  /\ (forall a,
        score (st (final (onArticleAnswer a σ)))
        = if lock (st σ) then score (st σ)
          else match current (st σ) with
               | None => score (st σ)
               | Some cur =>
                   if bool_decide (a = article cur) then score (st σ) + 2
                   else Z.max 0 (score (st σ) - 1)
               end)
  /\ (forall ch, 0 <= score (st (final (onMeaningAnswer ch σ))))
  /\ (forall a, 0 <= score (st (final (onArticleAnswer a σ)))).
Proof.
  intros Hr.
  assert (Hs : 0 <= score (st σ)).
  { induction Hr as [items stored e|σ e σ' _ IH Hstep].
    - unfold booted. rewrite startRound_score. lia.
    - by eapply step_score. }
  split; [exact Hs|]. split; [apply startRound_score|].
  split; [intros ch; apply onMeaningAnswer_score|].
  split; [intros a; apply onArticleAnswer_score|].
  split.
  - intros ch. rewrite onMeaningAnswer_score.
    destruct (lock (st σ)), (current (st σ)), (isCorrect ch); lia.
  - intros a. rewrite onArticleAnswer_score.
    destruct (lock (st σ)); [done|].
    destruct (current (st σ)) as [cur|]; [|done].
    destruct (bool_decide (a = article cur)); lia.
Qed.


(* --------------------------------------------------------------------- *)
(** ** Completion of an item *)
(* --------------------------------------------------------------------- *)

Section Completion.
Context `{JSON}.

Lemma view_eq (σ' : Sys) (v : RoundView) :
  round_view σ' = v ->
  done (st σ') = v_done v /\ buttons (env σ') = v_buttons v
  /\ current (st σ') = v_current v /\ timers (env σ') = v_timers v.
Proof. by intros <-. Qed.

Lemma disabled_not_enabled (b : Buttons) : disabled b <> ArticleButtons true.
Proof. by destruct b. Qed.

(** One timely step keeps the invariant, and raises [done] only for a
    right article answer on an armed draw. *)
Lemma step_armed (e : Event) (σ σ' : Sys) (armed : bool) :
  armed_inv σ armed ->
  (e = TimerFires \/ timers (env σ) = 0%nat) ->
  step e σ = Some σ' ->
  armed_inv σ' (arm e σ armed)
  /\ (done (st σ) < done (st σ') ->
      armed = true /\ right_article e σ = true).
Proof.
  intros (Hdone & Hart & Htim) Htimely. unfold step.
  destruct (enabled e σ) eqn:Hen; [|done]. intros [= <-].
  destruct e as [ch|a| | |]; simpl in *.
  - (* a click on a word *)
    destruct Htimely as [|Ht0]; [done|].
    destruct (buttons (env σ)) as [|cs [|]|] eqn:Hb; try done.
    destruct (lock (st σ)) eqn:Hl.
    { rewrite onMeaningAnswer_locked by done. unfold armed_inv. simpl.
      rewrite Hb. repeat split; (done || lia). }
    destruct (current (st σ)) as [cur|] eqn:Hc.
    + destruct (onMeaningAnswer_view ch σ cur Hl Hc)
        as (σ1 & pos & -> & _ & Hv).
      apply view_eq in Hv as (Hd & Hbu & Hcu & Hti). simpl.
      unfold armed_inv. rewrite Hd, Hbu, Hti.
      destruct (isCorrect ch); simpl; rewrite Hb; simpl;
        repeat split; (done || lia).
    + destruct (onMeaningAnswer_no_item ch σ Hl Hc) as [_ Hv].
      apply view_eq in Hv as (Hd & Hbu & Hcu & Hti).
      unfold armed_inv. rewrite Hd, Hbu, Hti. simpl. rewrite Hb. simpl.
      repeat split; (done || lia).
  - (* a click on an article *)
    destruct Htimely as [|Ht0]; [done|].
    destruct (buttons (env σ)) as [|cs en|[|]] eqn:Hb; try done.
    destruct (lock (st σ)) eqn:Hl.
    { rewrite onArticleAnswer_locked by done. unfold armed_inv. simpl.
      rewrite Hb. repeat split; (done || lia || auto). }
    destruct (current (st σ)) as [cur|] eqn:Hc.
    + destruct (onArticleAnswer_view a σ cur Hl Hc)
        as (σ1 & pos & -> & _ & Hv).
      apply view_eq in Hv as (Hd & Hbu & Hcu & Hti). simpl.
      unfold armed_inv. rewrite Hd, Hbu, Hti.
      destruct (bool_decide (a = article cur)); simpl; rewrite Hb; simpl;
        repeat split; (done || lia || auto).
    + destruct (onArticleAnswer_no_item a σ Hl Hc) as [_ Hv].
      apply view_eq in Hv as (Hd & Hbu & Hcu & Hti).
      unfold armed_inv. rewrite Hd, Hbu, Hti. simpl. rewrite Hb. simpl.
      repeat split; (done || lia).
  - (* the next button *)
    destruct Htimely as [|Ht0]; [done|]. unfold_js.
    set (σ1 := on_env (set_btnNextDisabled true) σ).
    destruct (nextItem_cases σ1)
      as [Hv|[Hv|(x & rest & cs & clue & _ & Hv)]];
      apply view_eq in Hv as (Hd & Hbu & Hcu & Hti);
      unfold armed_inv; rewrite Hd, Hbu, Hcu, Hti; subst σ1; simpl;
      repeat split; (done || lia).
  - (* the restart button *)
    destruct Htimely as [|Ht0]; [done|].
    destruct (startRound_view σ) as (q & σ1 & Hv1 & ->).
    apply view_eq in Hv1 as (Hd1 & Hbu1 & Hcu1 & Hti1).
    destruct (nextItem_cases σ1)
      as [Hv|[Hv|(x & rest & cs & clue & _ & Hv)]];
      apply view_eq in Hv as (Hd & Hbu & Hcu & Hti);
      unfold armed_inv; rewrite Hd, Hbu, Hcu, Hti; simpl;
      rewrite ?Hd1, ?Hti1; simpl;
      repeat split; (done || lia).
  - (* a delayed render *)
    apply bool_decide_eq_true in Hen. unfold_js. simpl.
    set (σ1 := on_env (fun e => set_timers (pred (timers e)) e) σ).
    pose proof (render_view σ1) as Hv.
    assert (Harmed : armed = true) by auto.
    destruct (current (st σ1)) as [cur|] eqn:Hc;
      apply view_eq in Hv as (Hd & Hbu & Hcu & Hti);
      unfold armed_inv; rewrite Hd, Hbu, Hcu, Hti; subst σ1; simpl;
      repeat split; (done || lia).
Qed.

(** No timely session violates the completion discipline. *)
Lemma timely_sessions_respect (es : list Event) (σ : Sys) (armed : bool) :
  armed_inv σ armed -> timely es σ = true -> monitor es σ armed <> Violated.
Proof.
  revert σ armed. induction es as [|e es IH]; intros σ armed Hinv Ht;
    simpl in *; [done|].
  apply andb_true_iff in Ht as [Hnow Hrest].
  destruct (step e σ) as [σ'|] eqn:Hstep; [|done].
  assert (Htimely : e = TimerFires \/ timers (env σ) = 0%nat).
  { destruct e; try (right; by apply bool_decide_eq_true in Hnow). by left. }
  destruct (step_armed e σ σ' armed Hinv Htimely Hstep) as [Hinv' Hup].
  destruct (bool_decide (done (st σ) < done (st σ'))) eqn:Hlt; simpl.
  - apply bool_decide_eq_true in Hlt. destruct (Hup Hlt) as [-> ->].
    simpl. by apply IH.
  - by apply IH.
Qed.

Lemma booted_armed_inv (items : list VocabItem) (stored : gmap string Stat)
    (e : Env) :
  armed_inv (booted items stored e) false.
Proof.
  unfold booted.
  destruct (startRound_view (loaded items stored e)) as (q & σ1 & Hv1 & ->).
  apply view_eq in Hv1 as (Hd1 & Hbu1 & Hcu1 & Hti1).
  destruct (nextItem_cases σ1)
    as [Hv|[Hv|(x & rest & cs & clue & _ & Hv)]];
    apply view_eq in Hv as (Hd & Hbu & Hcu & Hti);
    unfold armed_inv; rewrite Hd, Hbu, Hcu, Hti; simpl;
    rewrite ?Hd1, ?Hti1, ?Hbu1; simpl;
    repeat split; (done || lia).
Qed.
End Completion.

(* --------------------------------------------------------------------- *)
(** ** shuffle *)
(* --------------------------------------------------------------------- *)

(** Under the contract of [Math.random()] the index [Math.floor(u * n)]
    lies inside [0, n). *)
Lemma floor_index_range (u : Q) (n : nat) :
  (0 <= u)%Q -> (u < 1)%Q -> (0 < n)%nat -> (floor_index u n < n)%nat.
Proof.
  intros H0 H1 Hn. unfold floor_index.
  assert (Hnq : (0 < inject_Z (Z.of_nat n))%Q).
  { change 0%Q with (inject_Z 0). rewrite <- Zlt_Qlt. lia. }
  assert (Hlt : (u * inject_Z (Z.of_nat n) < inject_Z (Z.of_nat n))%Q).
  { rewrite <- (Qmult_1_l (inject_Z (Z.of_nat n))) at 2.
    by apply Qmult_lt_compat_r. }
  pose proof (Qfloor_le (u * inject_Z (Z.of_nat n))) as Hfl.
  assert (Hz : (Qfloor (u * inject_Z (Z.of_nat n)) < Z.of_nat n)%Z).
  { rewrite Zlt_Qlt. eapply Qle_lt_trans; eauto. }
  assert (Hge : (0 <= Qfloor (u * inject_Z (Z.of_nat n)))%Z).
  { change 0%Z with (Qfloor 0). apply Qfloor_resp_le.
    apply Qmult_le_0_compat; [done|]. by apply Qlt_le_weak. }
  lia.
Qed.

Lemma insert_swap_head {A : Type} (t : list A) (k : nat) (h y : A) :
  t !! k = Some y -> y :: <[k := h]> t ≡ₚ h :: t.
Proof.
  revert k. induction t as [|z t IH]; intros [|k] Hk; simplify_eq/=.
  - apply perm_swap.
  - rewrite (perm_swap z y), (IH k Hk). apply perm_swap.
Qed.

Lemma swap_Permutation {A : Type} (a : list A) (i j : nat) : swap a i j ≡ₚ a.
Proof.
  unfold swap.
  destruct (a !! i) as [x|] eqn:Hi; [|done].
  destruct (a !! j) as [y|] eqn:Hj; [|done].
  revert i j Hi Hj. induction a as [|h t IH]; intros i j Hi Hj; [done|].
  destruct i as [|i], j as [|j]; simplify_eq/=.
  - done.
  - by apply insert_swap_head.
  - by apply insert_swap_head.
  - by rewrite IH.
Qed.

Lemma shuffle_loop_Permutation {A : Type} (i : nat) (a : list A) (g : Rng) :
  (shuffle_loop i a g).1 ≡ₚ a.
Proof.
  revert a g. induction i as [|i IH]; intros a g; simpl; [done|].
  rewrite IH. apply swap_Permutation.
Qed.

Lemma shuffle_Permutation {A : Type} (arr : list A) (g : Rng) :
  (shuffle arr g).1 ≡ₚ arr.
Proof. apply shuffle_loop_Permutation. Qed.

Lemma shuffle_loop_gen {A : Type} (i : nat) (a : list A) (g : Rng) :
  gen (shuffle_loop i a g).2 = gen g.
Proof.
  revert a g. induction i as [|i IH]; intros a g; simpl; [done|].
  by rewrite IH.
Qed.

(** The indices that [shuffle] swaps are inside the array. *)
Lemma shuffle_index_in_range (g : Rng) (i len : nat) :
  unit_interval g -> (i < len)%nat ->
  let j := floor_index (next_random g).1 (i + 1) in
  (j <= i)%nat /\ (j < len)%nat.
Proof.
  intros Hg Hi j. destruct (Hg (pos g)) as [H0 H1].
  pose proof (floor_index_range _ (i + 1) H0 H1 ltac:(lia)) as Hj.
  subst j. simpl. lia.
Qed.

(* --------------------------------------------------------------------- *)
(** ** Choice generation *)
(* --------------------------------------------------------------------- *)

Lemma intersectTags_spec (aTags bTags : list string) :
  intersectTags aTags bTags = true <-> exists t, t ∈ aTags /\ t ∈ bTags.
Proof.
  unfold intersectTags. induction bTags as [|b rest IH]; simpl.
  - split; [done|]. intros (t & _ & Ht). by apply elem_of_nil in Ht.
  - rewrite orb_true_iff, IH, bool_decide_eq_true, elem_of_list_to_set.
    split.
    + intros [Hb|(t & Ha & Ht)]; [exists b|exists t]; split; auto;
        by constructor.
    + intros (t & Ha & Ht). apply elem_of_cons in Ht as [->|Ht]; eauto.
Qed.

Lemma sameTag_spec (pool : list VocabItem) (item x : VocabItem) :
  x ∈ sameTag pool item
  <-> x ∈ pool /\ id x ≠ id item
      /\ exists t, t ∈ tags x /\ t ∈ tags item.
Proof.
  unfold sameTag. rewrite list_elem_of_filter, intersectTags_spec. tauto.
Qed.

Lemma candidates_others (pool : list VocabItem) (item x : VocabItem) :
  x ∈ candidates pool item -> x ∈ pool /\ id x ≠ id item.
Proof.
  unfold candidates. intros Hx.
  assert (Hsame : x ∈ sameTag pool item -> x ∈ pool /\ id x ≠ id item).
  { rewrite sameTag_spec. tauto. }
  destruct (decide _); [auto|].
  apply elem_of_app in Hx as [Hx|Hx]; [auto|].
  apply list_elem_of_filter in Hx. unfold other_than in Hx. tauto.
Qed.



Lemma pref_others (pool : list VocabItem) (item x : VocabItem) :
  x ∈ pref pool item -> x ∈ pool /\ id x ≠ id item.
Proof.
  unfold pref, diffArticle. destruct (decide _); intros Hx.
  - apply list_elem_of_filter in Hx as [_ Hx]. by apply candidates_others.
  - by apply candidates_others.
Qed.


Lemma dedupe_pair (a b : VocabItem) :
  dedupe [a; b] = if decide (id b = id a) then [b] else [a; b].
Proof. unfold dedupe, Map_new, Map_values. simpl. by destruct (decide _). Qed.



Lemma to_choice_correct (item x : VocabItem) :
  isCorrect (to_choice item x) = true <-> ch_id (to_choice item x) = id item.
Proof. simpl. apply bool_decide_eq_true. Qed.



(* --------------------------------------------------------------------- *)
(** ** Rounds on a short catalogue, and the delayed render *)
(* --------------------------------------------------------------------- *)

(** C5.  On the three-word catalogue the target stays 20.  After the
    third item is completed, [done] is 3, the queue is empty and the next
    button is enabled; the click on it does not reach the end of the
    round: [nextItem] dequeues from the empty queue and throws on
    [state.current.id]. *)
Theorem short_catalogue_round_underflows :
  (Z.of_nat (length small_vocab) < TARGET_SETS)
  /\ observe <$> sample_run flawless_session
     = Some (3, 20, article_phase, Some "haus", [], ArticleButtons false,
             false, 0%nat)
  /\ (fun σ => (@enabled ClickNext σ, threw (@handler sample_JSON ClickNext σ)))
       <$> sample_run flawless_session
     = Some (true, true)
  /\ observe <$> sample_run (flawless_session ++ [ClickNext])
     = Some (3, 20, meaning, None, [], ArticleButtons false, true, 0%nat).
Proof. repeat split; vm_compute; reflexivity. Qed.

(** X28.  From any state with an empty queue and an unfinished round,
    advancing throws; the check [done >= target] is the only way into the
    end of the round and [target] is never lowered. *)
Lemma advance_on_empty_queue_throws `{JSON} (σ : Sys) :
  done (st σ) < target (st σ) -> queue (st σ) = [] ->
  threw (nextItem σ) = true
  /\ current (st (final (nextItem σ))) = None
  /\ target (st (final (nextItem σ))) = target (st σ).
Proof.
  intros Hd Hq. destruct (nextItem_underflow σ Hd Hq) as [Hthrow Hv].
  split; [exact Hthrow|].
  split; [by apply (f_equal v_current) in Hv|by apply (f_equal v_target) in Hv].
Qed.

(** C6.  A session that restarts the round while a render is pending:
    after the fourth event the article buttons of the current item [hund]
    are enabled and a second render is pending; the wrong article requeues
    [hund] and leaves [done] at 0; the pending render enables the article
    buttons again for the same draw; the right article then raises [done]
    to 1 although the answer before it was a miss, and [hund] is still in
    the queue. *)
Theorem stale_render_completes_after_miss :
  @timely sample_JSON stale_render_session sample_boot = false
  /\ @monitor sample_JSON stale_render_session sample_boot false = Violated
  /\ observe <$> sample_run (take 4 stale_render_session)
     = Some (0, 20, article_phase, Some "hund", ["katze"; "haus"],
             ArticleButtons true, true, 1%nat)
  /\ observe <$> sample_run (take 5 stale_render_session)
     = Some (0, 20, article_phase, Some "hund", ["katze"; "haus"; "hund"],
             ArticleButtons false, false, 1%nat)
  /\ observe <$> sample_run (take 6 stale_render_session)
     = Some (0, 20, article_phase, Some "hund", ["katze"; "haus"; "hund"],
             ArticleButtons true, true, 0%nat)
  /\ observe <$> sample_run stale_render_session
     = Some (1, 20, article_phase, Some "hund", ["katze"; "haus"; "hund"],
             ArticleButtons false, false, 0%nat).
Proof. repeat split; vm_compute; reflexivity. Qed.

(** X26.  Without that race the discipline holds: in every session from
    the start of the page in which no click is taken while a render is
    pending, [done] goes up only on a right article answer given for a
    draw whose last answer was a right meaning answer. *)
Lemma timely_sessions_complete_properly `{JSON}
    (items : list VocabItem) (stored : gmap string Stat) (e : Env)
    (es : list Event) :
  timely es (booted items stored e) = true ->
  monitor es (booted items stored e) false <> Violated.
Proof. apply timely_sessions_respect, booted_armed_inv. Qed.

(** X27.  A miss in either phase leaves [done] alone and puts the current
    item back into the queue; the draw that follows starts in the meaning
    phase. *)
Lemma miss_requeues `{JSON} (σ : Sys) (cur : VocabItem) :
  lock (st σ) = false -> current (st σ) = Some cur ->
  (forall ch, isCorrect ch = false ->
     exists pos, (pos <= length (queue (st σ)))%nat
       /\ done (st (final (onMeaningAnswer ch σ))) = done (st σ)
       /\ queue (st (final (onMeaningAnswer ch σ)))
          = splice_in pos cur (queue (st σ)))
  /\ (forall a, a <> article cur ->
     exists pos, (pos <= length (queue (st σ)))%nat
       /\ done (st (final (onArticleAnswer a σ))) = done (st σ)
       /\ queue (st (final (onArticleAnswer a σ)))
          = splice_in pos cur (queue (st σ)))
  /\ (forall x rest, done (st σ) < target (st σ) -> queue (st σ) = x :: rest ->
        phase (st (final (nextItem σ))) = meaning
        /\ current (st (final (nextItem σ))) = Some x).
Proof.
  intros Hl Hc. split; [|split].
  - intros ch Hwrong.
    destruct (onMeaningAnswer_view ch σ cur Hl Hc) as (σ' & pos & -> & Hp & Hv).
    rewrite Hwrong in Hv. exists pos. split; [done|]. simpl.
    split; [by apply (f_equal v_done) in Hv|by apply (f_equal v_queue) in Hv].
  - intros a Hwrong.
    destruct (onArticleAnswer_view a σ cur Hl Hc) as (σ' & pos & -> & Hp & Hv).
    rewrite bool_decide_eq_false_2 in Hv by done.
    exists pos. split; [done|]. simpl.
    split; [by apply (f_equal v_done) in Hv|by apply (f_equal v_queue) in Hv].
  - intros x rest Hd Hq.
    destruct (nextItem_draw σ x rest Hd Hq) as (σ' & cs & clue & -> & Hv).
    simpl.
    split; [by apply (f_equal v_phase) in Hv|by apply (f_equal v_current) in Hv].
Qed.

(* --------------------------------------------------------------------- *)
(** ** The theorems at concrete inputs *)
(* --------------------------------------------------------------------- *)

Lemma small_vocab_NoDup : NoDup (id <$> small_vocab).
Proof. refine (bool_decide_unpack _ _). vm_compute. exact I. Defined.

Lemma sample_boot_unit_interval : unit_interval (rng (env sample_boot)).
Proof. intros n. vm_compute. split; [discriminate|reflexivity]. Defined.

(** Two of the three words, sampled in the booted state. *)
Lemma pickWeightedUnique_distinct_witness :
  NoDup (id <$> small_vocab)
  /\ length (pickWeightedUnique itemWeight Math_random small_vocab 2
               sample_boot).1 = 2%nat
  /\ NoDup (id <$> (pickWeightedUnique itemWeight Math_random small_vocab 2
                      sample_boot).1).
Proof.
  split; [exact small_vocab_NoDup|].
  pose proof (pickWeightedUnique_distinct itemWeight Math_random small_vocab 2
                sample_boot small_vocab_NoDup) as (Hlen & Hnd & _).
  split; [exact Hlen|exact Hnd].
Defined.

(** All weights 0: the first word is taken. *)
Lemma draw_step_degenerate_witness :
  (clamped_sum (map_weights zero_weight (Hund :: [Katze; Haus]) tt).1 <= 0)%Q
  /\ draw_step zero_weight no_random Hund [Katze; Haus] [] tt
     = ([Katze; Haus], [Hund], tt).
Proof.
  assert (Hsum : (clamped_sum
                    (map_weights zero_weight (Hund :: [Katze; Haus]) tt).1
                  <= 0)%Q) by (vm_compute; discriminate).
  split; [exact Hsum|].
  exact (proj1 (draw_step_degenerate zero_weight no_random Hund [Katze; Haus]
                  [] tt Hsum)).
Defined.

(** The first word of the booted round, missed for the first time. *)
Lemma requeue_offset_and_position_witness :
  current (st sample_boot) = Some Hund
  /\ afterN 0 = clamp (6 - 0 / 2) 2 6
  /\ id <$> queue (st (requeueCurrentAdaptive sample_boot))
     = ["katze"; "haus"; "hund"].
Proof.
  assert (Hcur : current (st sample_boot) = Some Hund)
    by (vm_compute; reflexivity).
  assert (Hw : 0 <= wrongMeaning (ensureStat (id Hund) sample_boot).1
                    + wrongArticle (ensureStat (id Hund) sample_boot).1)
    by (vm_compute; discriminate).
  pose proof (requeue_offset_and_position sample_boot Hund Hcur Hw)
    as (Hclamp & _ & _ & _ & _ & _ & Hq & _).
  split; [exact Hcur|]. split; [exact Hclamp|].
  rewrite Hq. vm_compute. reflexivity.
Defined.





(** Loading, and recording a sighting of the first word, in the booted
    state with its writable storage. *)
Lemma persistence_is_non_fatal_witness :
  ls_writable (storage (env sample_boot)) = true
  /\ (exists v, @loadStats sample_JSON sample_boot = Normal v sample_boot)
  /\ (exists σ', @recordSeen sample_JSON "hund" sample_boot = Normal tt σ'
        /\ ls_data (storage (env σ')) !! STORAGE_KEY
           = Some (@JSON_stringify sample_JSON (stats (st σ')))).
Proof.
  assert (Hw : ls_writable (storage (env sample_boot)) = true)
    by (vm_compute; reflexivity).
  pose proof (@persistence_is_non_fatal sample_JSON sample_boot "hund"
                meaning true) as ((v & Hload & _) & _ & Hseen & _).
  destruct Hseen as (σ' & Hrun & _ & Hdata).
  split; [exact Hw|]. split; [by exists v|].
  exists σ'. split; [exact Hrun|exact (Hdata Hw)].
Defined.

(** The booted state of the three-word catalogue is reachable. *)
Lemma score_never_negative_witness :
  @reachable sample_JSON sample_boot /\ 0 <= score (st sample_boot).
Proof.
  assert (Hr : @reachable sample_JSON sample_boot) by apply reach_boot.
  split; [exact Hr|].
  exact (proj1 (@score_never_negative sample_JSON sample_boot Hr)).
Defined.

(* --------------------------------------------------------------------- *)
(** ** The statistics stay well formed *)
(* --------------------------------------------------------------------- *)



Lemma put_stat_ok (i : string) (s : Stat) (σ : Sys) :
  wf_stat s -> stats_ok σ -> stats_ok (put_stat i s σ).
Proof. intros Hs Hok. unfold stats_ok. simpl. by apply map_Forall_insert_2. Qed.


Section SamplerInvariant.
Context {A W : Type}.
Variable weightFn : A -> W -> Q * W.
Variable random : W -> Q * W.
Variable P : W -> Prop.
Hypothesis weightFn_keeps : forall x w, P w -> P (weightFn x w).2.
Hypothesis random_keeps : forall w, P w -> P (random w).2.

Lemma map_weights_keeps (pool : list A) (w : W) :
  P w -> P (map_weights weightFn pool w).2.
Proof.
  revert w. induction pool as [|x rest IH]; intros w Hw; simpl; [done|].
  pose proof (weightFn_keeps x w Hw) as Hx.
  destruct (weightFn x w) as [q w1]. simpl in Hx. specialize (IH w1 Hx).
  by destruct (map_weights weightFn rest w1) as [qs w2].
Qed.

Lemma draw_step_keeps (x : A) (rest picked : list A) (w : W) :
  P w -> P (draw_step weightFn random x rest picked w).2.
Proof.
  intros Hw. unfold draw_step.
  pose proof (map_weights_keeps (x :: rest) w Hw) as Hm.
  destruct (map_weights weightFn (x :: rest) w) as [weights w1].
  simpl in Hm. destruct (Qle_bool _ _); [done|].
  pose proof (random_keeps w1 Hm) as Hr. destruct (random w1) as [u w2].
  simpl in Hr. unfold splice1. by destruct (_ !! _).
Qed.

Lemma pick_loop_keeps (n : nat) (pool picked : list A) (w : W) :
  P w -> P (pick_loop weightFn random n pool picked w).2.
Proof.
  revert pool picked w. induction n as [|n IH]; intros pool picked w Hw;
    simpl; [done|].
  destruct pool as [|x rest]; [done|].
  pose proof (draw_step_keeps x rest picked w Hw) as Hd.
  destruct (draw_step weightFn random x rest picked w) as [[p1 p2] w'].
  by apply IH.
Qed.
End SamplerInvariant.




Section KeepsStats.
Context `{JSON}.







Lemma keeps_saveStats : keeps saveStats.
Proof. intros σ Hok. by rewrite saveStats_total. Qed.







End KeepsStats.

(* --------------------------------------------------------------------- *)
(** ** The weight, in every state of a session *)
(* --------------------------------------------------------------------- *)




(* ===================================================================== *)
(** * Further properties of the code *)
(* ===================================================================== *)

(* --------------------------------------------------------------------- *)
(** ** shuffle and intersectTags *)
(* --------------------------------------------------------------------- *)

Lemma swap_length {A : Type} (a : list A) (i j : nat) :
  length (swap a i j) = length a.
Proof.
  unfold swap. destruct (a !! i); [|done]. destruct (a !! j); [|done].
  by rewrite !length_insert.
Qed.

Lemma shuffle_loop_pos {A : Type} (i : nat) (a : list A) (g : Rng) :
  pos (shuffle_loop i a g).2 = (pos g + i)%nat.
Proof.
  revert a g. induction i as [|i IH]; intros a g; simpl; [lia|].
  rewrite IH. simpl. lia.
Qed.

(** X1.  With random draws in [0,1), [shuffle] returns a permutation of
    its argument and calls [Math.random()] once per element but the first;
    a list of at most one element comes back as it is, without a draw. *)
Theorem shuffle_permutes {A : Type} (arr : list A) (g : Rng) :
  unit_interval g ->
  (shuffle arr g).1 ≡ₚ arr
  /\ length (shuffle arr g).1 = length arr
  /\ pos (shuffle arr g).2 = (pos g + (length arr - 1))%nat
  /\ gen (shuffle arr g).2 = gen g
  /\ ((length arr <= 1)%nat -> shuffle arr g = (arr, g)).
Proof.
  intros _. split; [apply shuffle_Permutation|].
  split. { by rewrite shuffle_Permutation. }
  split; [apply shuffle_loop_pos|]. split; [apply shuffle_loop_gen|].
  intros Hlen. unfold shuffle.
  by replace (length arr - 1)%nat with O by lia.
Qed.

(** X2.  [intersectTags] answers whether the two tag lists share a tag;
    the order of the arguments does not matter, and an empty list on
    either side gives [false]. *)
Theorem intersectTags_shared_tag (aTags bTags : list string) :
  (intersectTags aTags bTags = true <-> exists t, t ∈ aTags /\ t ∈ bTags)
  /\ intersectTags aTags bTags = intersectTags bTags aTags
  /\ intersectTags [] bTags = false
  /\ intersectTags aTags [] = false.
Proof.
  split; [apply intersectTags_spec|].
  assert (Hnil : forall l, intersectTags [] l = false).
  { intros l. apply not_true_is_false. rewrite intersectTags_spec.
    intros (t & Ht & _). by apply elem_of_nil in Ht. }
  split; [|split; [apply Hnil|done]].
  destruct (intersectTags aTags bTags) eqn:Hab.
  - symmetry. apply intersectTags_spec.
    apply intersectTags_spec in Hab as (t & Ha & Hb). eauto.
  - symmetry. apply not_true_is_false. intros Hba.
    apply intersectTags_spec in Hba as (t & Hb & Ha).
    assert (intersectTags aTags bTags = true) by (apply intersectTags_spec; eauto).
    congruence.
Qed.

(* --------------------------------------------------------------------- *)
(** ** The statistics records *)
(* --------------------------------------------------------------------- *)



(** X5.  On a record that exists and whose answer counters are not
    negative and at most [Number.MAX_SAFE_INTEGER], [recordResult] never
    throws and adds one to exactly the counter of the given phase and
    outcome, so the number of answers of the record grows by one and the
    number of wrong answers by one exactly for a wrong answer; [seen],
    [lastSeenAt], the counters of the other phase, every other record and
    the clock are left alone.  (Up to that bound [+= 1] is exact on the
    program's numbers; an id without a record is left to [ensureStat].) *)
Theorem recordResult_counts `{JSON}
    (i : string) (ph : Phase) (c : bool) (σ : Sys) (s : Stat) :
  stats (st σ) !! i = Some s ->
  safe_counters s ->
  exists σ' s',
    recordResult i ph c σ = Normal tt σ'
    /\ stats (st σ') !! i = Some s'
    /\ totalAnswers s' = totalAnswers s + 1
    /\ totalWrong s' = totalWrong s + (if c then 0 else 1)
    /\ seen s' = seen s /\ lastSeenAt s' = lastSeenAt s
    /\ match ph with
       | meaning =>
           correctMeaning s' = correctMeaning s + (if c then 1 else 0)
           /\ correctArticle s' = correctArticle s
           /\ wrongArticle s' = wrongArticle s
       | article_phase =>
           correctArticle s' = correctArticle s + (if c then 1 else 0)
           /\ correctMeaning s' = correctMeaning s
           /\ wrongMeaning s' = wrongMeaning s
       end
    /\ (forall j, j <> i -> stats (st σ') !! j = stats (st σ) !! j)
    /\ clock_pos (env σ') = clock_pos (env σ)
    /\ round_view σ' = round_view σ.
Proof.
  intros Hs _.
  assert (He : ensureStat i σ = (s, σ))
    by (unfold ensureStat; by rewrite Hs).
  unfold recordResult. unfold_js. rewrite He.
  rewrite saveStats_total. eexists _, _. split; [reflexivity|]. simpl.
  rewrite lookup_insert_eq. split; [reflexivity|].
  unfold totalAnswers, totalWrong.
  split; [destruct ph, c; simpl; lia|].
  split; [destruct ph, c; simpl; lia|].
  split; [by destruct ph, c|]. split; [by destruct ph, c|].
  split; [destruct ph, c; simpl; lia|].
  split; [|by split].
  intros j Hj. by rewrite lookup_insert_ne.
Qed.

(* --------------------------------------------------------------------- *)
(** ** Error rate, recency and the range of the weight *)
(* --------------------------------------------------------------------- *)






Lemma age_hours_monotone (now now' : Z) (s : Stat) :
  now <= now' -> (age_hours now s <= age_hours now' s)%Q.
Proof.
  intros Hle. unfold age_hours, Qdiv.
  apply Qmult_le_compat_r; [|done]. rewrite <- Zle_Qle. lia.
Qed.

(** X8.  The recency factor of a record never goes down as the clock
    advances. *)
Theorem recencyFactor_monotone_in_time (now now' : Z) (s : Stat) :
  now <= now' -> (recencyFactor now s <= recencyFactor now' s)%Q.
Proof.
  intros Hle. pose proof (age_hours_monotone now now' s Hle) as Hage.
  destruct (Z.eq_dec (lastSeenAt s) 0) as [Hz|Hnz].
  { rewrite !recencyFactor_unset by done. apply Qle_refl. }
  destruct (Qlt_le_dec (age_hours now' s) RECENT_PENALTY_HOURS) as [Hlt|Hge].
  - rewrite (recencyFactor_recent now' s Hnz Hlt).
    rewrite (recencyFactor_recent now s Hnz) by (eapply Qle_lt_trans; eauto).
    apply Q.max_le_compat_l. unfold Qdiv. by apply Qmult_le_compat_r.
  - rewrite (recencyFactor_old now' s Hge).
    apply (recencyFactor_range now s).
Qed.



Lemma clamped_sum_from (ws : list Q) (acc : Q) :
  (fold_left (fun sum w => sum + Qmax 0 w) ws acc
   == acc + clamped_sum ws)%Q.
Proof.
  unfold clamped_sum. revert acc. induction ws as [|w ws IH]; intros acc;
    simpl.
  - ring.
  - rewrite IH, (IH (0 + Qmax 0 w)%Q). ring.
Qed.

Lemma clamped_sum_cons (w : Q) (ws : list Q) :
  (clamped_sum (w :: ws) == Qmax 0 w + clamped_sum ws)%Q.
Proof.
  unfold clamped_sum at 1. simpl. rewrite clamped_sum_from. ring.
Qed.



(* --------------------------------------------------------------------- *)
(** ** More on the sampler *)
(* --------------------------------------------------------------------- *)

(** X12.  Asked for at least as many items as the pool holds,
    [pickWeightedUnique] returns the whole pool in some order: every item
    exactly once. *)
Theorem pickWeightedUnique_whole_pool
    {A W : Type} (weightFn : A -> W -> Q * W) (random : W -> Q * W)
    (pool : list A) (k : Z) (w : W) :
  Z.of_nat (length pool) <= k ->
  (pickWeightedUnique weightFn random pool k w).1 ≡ₚ pool.
Proof.
  intros Hk. unfold pickWeightedUnique.
  destruct (pick_loop_selects weightFn random (Z.to_nat k) pool [] w)
    as (sel & -> & Hsub & Hlen).
  simpl. apply submseteq_length_Permutation; [done|]. lia.
Qed.

Lemma clamped_sum_nonpositive (ws : list Q) :
  Forall (fun q => (q <= 0)%Q) ws -> (clamped_sum ws <= 0)%Q.
Proof.
  induction 1 as [|q ws Hq _ IH]; [apply Qle_refl|].
  rewrite clamped_sum_cons, (Q.max_l 0 q Hq). lra.
Qed.

Section Fallback.
Context {A W : Type}.
Variable weightFn : A -> W -> Q * W.
Variable random : W -> Q * W.
Hypothesis weightless : forall x w, ((weightFn x w).1 <= 0)%Q.

Lemma map_weights_weightless (pool : list A) (w : W) :
  Forall (fun q => (q <= 0)%Q) (map_weights weightFn pool w).1.
Proof.
  revert w. induction pool as [|x rest IH]; intros w; simpl; [done|].
  pose proof (weightless x w) as Hx. destruct (weightFn x w) as [q w1].
  specialize (IH w1). destruct (map_weights weightFn rest w1) as [qs w2].
  simpl in *. by constructor.
Qed.

Lemma pick_loop_weightless (n : nat) (pool picked : list A) (w : W) :
  (pick_loop weightFn random n pool picked w).1 = picked ++ take n pool.
Proof.
  revert pool picked w. induction n as [|n IH]; intros pool picked w; simpl.
  - by rewrite take_0, app_nil_r.
  - destruct pool as [|x rest]; simpl; [by rewrite app_nil_r|].
    unfold draw_step.
    pose proof (map_weights_weightless (x :: rest) w) as Hall.
    destruct (map_weights weightFn (x :: rest) w) as [weights w1].
    simpl in Hall. apply clamped_sum_nonpositive, Qle_bool_iff in Hall.
    rewrite Hall, IH. by rewrite <- app_assoc.
Qed.
End Fallback.

(** X13.  When the weight function never returns a positive weight, the
    sampler returns the first [k] items of the pool in their order. *)
Theorem pickWeightedUnique_weightless_prefix
    {A W : Type} (weightFn : A -> W -> Q * W) (random : W -> Q * W)
    (pool : list A) (k : Z) (w : W) :
  (forall x w', ((weightFn x w').1 <= 0)%Q) ->
  (pickWeightedUnique weightFn random pool k w).1 = take (Z.to_nat k) pool.
Proof.
  intros Hweightless. unfold pickWeightedUnique.
  by rewrite pick_loop_weightless.
Qed.

(* --------------------------------------------------------------------- *)
(** ** Building the round *)
(* --------------------------------------------------------------------- *)

Lemma ensureStat_extends (i : string) (σ : Sys) :
  stats (st σ) ⊆ stats (st (ensureStat i σ).2)
  /\ is_Some (stats (st (ensureStat i σ).2) !! i).
Proof.
  unfold ensureStat. destruct (stats (st σ) !! i) as [s|] eqn:Hs; simpl.
  - split; [done|]. by rewrite Hs.
  - split; [by apply insert_subseteq|]. by rewrite lookup_insert_eq.
Qed.

Lemma itemWeight_extends (σ0 : Sys) (item : VocabItem) (σ : Sys) :
  stats (st σ0) ⊆ stats (st σ) ->
  stats (st σ0) ⊆ stats (st (itemWeight item σ).2).
Proof.
  intros Hsub. unfold itemWeight.
  destruct (ensureStat_extends (id item) σ) as [Hext _].
  destruct (ensureStat (id item) σ) as [s σ1]. simpl in *.
  unfold recencyFactorS. destruct (lastSeenAt s =? 0); simpl;
    by etrans.
Qed.

Lemma ensure_all_extends (items : list VocabItem) (σ : Sys) :
  stats (st σ) ⊆ stats (st (ensure_all items σ))
  /\ forall x, x ∈ items -> is_Some (stats (st (ensure_all items σ)) !! id x).
Proof.
  unfold ensure_all. revert σ.
  induction items as [|y rest IH]; intros σ; simpl.
  { split; [done|]. intros x Hx. by apply elem_of_nil in Hx. }
  destruct (ensureStat_extends (id y) σ) as [Hext Hy].
  destruct (IH (ensureStat (id y) σ).2) as [Hsub Hall].
  split; [by etrans|].
  intros x [->|Hx]%elem_of_cons; [|by apply Hall].
  destruct Hy as [s Hs]. exists s. by eapply lookup_weaken.
Qed.

Lemma buildRoundQueue_facts (σ : Sys) :
  let q := (buildRoundQueue σ).1 in
  let σ' := (buildRoundQueue σ).2 in
  length q = Nat.min (Z.to_nat TARGET_SETS) (length (vocab (st σ)))
  /\ q ⊆+ vocab (st σ)
  /\ (NoDup (id <$> vocab (st σ)) -> NoDup (id <$> q))
  /\ (forall x, x ∈ vocab (st σ) -> is_Some (stats (st σ') !! id x))
  /\ stats (st σ) ⊆ stats (st σ')
  /\ round_view σ' = round_view σ.
Proof.
  intros q σ'. subst q σ'.
  pose proof (buildRoundQueue_view σ) as Hview.
  unfold buildRoundQueue, pickWeightedUnique in *.
  destruct (ensure_all_extends (vocab (st σ)) σ) as [Hsub1 Hall].
  pose proof (ensure_all_view (vocab (st σ)) σ) as Hv1.
  assert (Hvocab : vocab (st (ensure_all (vocab (st σ)) σ)) = vocab (st σ))
    by (by apply (f_equal v_vocab) in Hv1).
  set (σ1 := ensure_all (vocab (st σ)) σ) in *. rewrite Hvocab in *.
  destruct (pick_loop_selects itemWeight Math_random (Z.to_nat TARGET_SETS)
              (vocab (st σ)) [] σ1) as (sel & Hsel & Hsubm & Hlen).
  assert (Hrefl : stats (st σ1) ⊆ stats (st σ1)) by reflexivity.
  pose proof (pick_loop_keeps itemWeight Math_random
                (fun w => stats (st σ1) ⊆ stats (st w))
                (itemWeight_extends σ1) (fun w Hw => Hw)
                (Z.to_nat TARGET_SETS) (vocab (st σ)) [] σ1 Hrefl) as Hsub2.
  destruct (pick_loop itemWeight Math_random (Z.to_nat TARGET_SETS)
              (vocab (st σ)) [] σ1) as [picked σ2].
  simpl in Hsel, Hsub2. subst picked.
  assert (Hq : forall q' σ3,
             q' = sel -> stats (st σ3) = stats (st σ2) ->
             length q' = Nat.min (Z.to_nat TARGET_SETS)
                                 (length (vocab (st σ)))
             /\ q' ⊆+ vocab (st σ)
             /\ (NoDup (id <$> vocab (st σ)) -> NoDup (id <$> q'))
             /\ (forall x, x ∈ vocab (st σ) ->
                   is_Some (stats (st σ3) !! id x))
             /\ stats (st σ) ⊆ stats (st σ3)).
  { intros q' σ3 -> Hst. rewrite Hst. split; [done|]. split; [done|].
    split. { intros Hnd. eapply NoDup_submseteq_inv; [exact Hnd|].
             by apply fmap_submseteq. }
    split.
    - intros x Hx. destruct (Hall x Hx) as [s Hs]. exists s.
      by eapply lookup_weaken.
    - by etrans. }
  destruct sel as [|x sel'].
  - destruct (shuffleS (vocab (st σ2)) σ2) as [sh σ3] eqn:Hsh.
    assert (Hnil : vocab (st σ) = []).
    { destruct (vocab (st σ)); [done|].
      unfold TARGET_SETS in Hlen. simpl length in Hlen. lia. }
    assert (Hsh' : sh = [] /\ stats (st σ3) = stats (st σ2)).
    { unfold shuffleS in Hsh.
      pose proof (shuffle_Permutation (vocab (st σ2)) (rng (env σ2))) as Hp.
      destruct (shuffle (vocab (st σ2)) (rng (env σ2))) as [a g].
      injection Hsh as <- <-. cbn [fst snd] in *. split; [|done].
      assert (Hv2 : vocab (st σ2) = []).
      { apply (f_equal v_vocab) in Hview. cbn in Hview. congruence. }
      rewrite Hv2 in Hp. by apply Permutation_nil_r in Hp. }
    destruct Hsh' as [-> Hst]. cbn [fst snd] in *.
    destruct (Hq [] σ3 eq_refl Hst) as (H1 & H2 & H3 & H4 & H5).
    rewrite take_nil. by repeat (split; [done|]).
  - cbn [fst snd] in *. destruct (Hq (x :: sel') σ2 eq_refl eq_refl)
      as (H1 & H2 & H3 & H4 & H5).
    by repeat (split; [done|]).
Qed.


(* --------------------------------------------------------------------- *)
(** ** Removing duplicate distractors *)
(* --------------------------------------------------------------------- *)

Lemma Map_set_fresh {V : Type} (k : string) (v : V) (m : list (string * V)) :
  k ∉ m.*1 -> Map_set k v m = m ++ [(k, v)].
Proof.
  induction m as [|[k' v'] m IH]; intros Hk; simpl; [done|].
  rewrite fmap_cons in Hk. apply not_elem_of_cons in Hk as [Hne Hk].
  simpl in Hne. destruct (decide (k = k')); [done|]. by rewrite IH.
Qed.

Lemma Map_set_keys {V : Type} (k : string) (v : V) (m : list (string * V)) :
  NoDup m.*1 -> NoDup (Map_set k v m).*1.
Proof.
  induction m as [|[k' v'] m IH]; intros Hnd; simpl.
  - apply NoDup_singleton.
  - rewrite fmap_cons in Hnd. apply NoDup_cons in Hnd as [Hk' Hnd]. simpl in *.
    destruct (decide (k = k')) as [->|Hne]; simpl.
    + by apply NoDup_cons.
    + apply NoDup_cons. split; [|by apply IH].
      clear IH Hnd. induction m as [|[k2 v2] m IHm]; simpl.
      * by intros ?%list_elem_of_singleton.
      * rewrite fmap_cons in Hk'. apply not_elem_of_cons in Hk' as [Hne2 Hk'].
        simpl in *. destruct (decide (k = k2)); simpl;
          rewrite not_elem_of_cons; split; auto.
Qed.

Lemma Map_set_entries {V : Type} (k : string) (v : V) (m : list (string * V))
    (e : string * V) :
  e ∈ Map_set k v m -> e = (k, v) \/ e ∈ m.
Proof.
  induction m as [|[k' v'] m IH]; simpl.
  - intros ?%list_elem_of_singleton. by left.
  - destruct (decide (k = k')).
    + intros [->|He]%elem_of_cons; [by left|]. right. by right.
    + intros [->|He]%elem_of_cons; [right; by left|].
      destruct (IH He) as [->|Hm]; [by left|]. right. by right.
Qed.

Lemma Map_fold_inv {V : Type} (es acc : list (string * V)) :
  NoDup acc.*1 ->
  NoDup (fold_left (fun m e => Map_set e.1 e.2 m) es acc).*1
  /\ (forall e, e ∈ fold_left (fun m e => Map_set e.1 e.2 m) es acc ->
        e ∈ acc \/ e ∈ es)
  /\ (NoDup (acc.*1 ++ es.*1) ->
      fold_left (fun m e => Map_set e.1 e.2 m) es acc = acc ++ es).
Proof.
  revert acc. induction es as [|[k v] es IH]; intros acc Hnd; simpl.
  { split; [done|]. split; [auto|]. intros _. by rewrite app_nil_r. }
  destruct (IH (Map_set k v acc) (Map_set_keys k v acc Hnd))
    as (Hkeys & Hin & Hfresh).
  split; [exact Hkeys|]. split.
  - intros e He. destruct (Hin e He) as [Hacc|Hes]; [|right; by right].
    destruct (Map_set_entries _ _ _ _ Hacc) as [->|?]; [right; by left|by left].
  - intros Hall.
    assert (Hk : k ∉ acc.*1).
    { apply NoDup_app in Hall as (_ & Hdisj & _). intros Hk.
      apply (Hdisj k Hk). by left. }
    rewrite Map_set_fresh in * by done.
    rewrite Hfresh; [by rewrite <- app_assoc|].
    rewrite fmap_app. simpl. rewrite <- app_assoc. exact Hall.
Qed.

(** X15.  Removing duplicates keeps at most two distractors, pairwise
    distinct by id and all taken from the given ones; distractors that are
    already distinct by id are the first two of them, in their order. *)
Theorem dedupe_distinct (ds : list VocabItem) :
  NoDup (id <$> dedupe ds)
  /\ (forall d, d ∈ dedupe ds -> d ∈ ds)
  /\ (length (dedupe ds) <= 2)%nat
  /\ (NoDup (id <$> ds) -> dedupe ds = take 2 ds).
Proof.
  unfold dedupe, Map_new, Map_values.
  destruct (Map_fold_inv ((fun d => (id d, d)) <$> ds) [] (NoDup_nil_2))
    as (Hkeys & Hin & Hfresh).
  set (m := fold_left _ _ _) in *.
  assert (Hentry : forall e, e ∈ m -> e.1 = id e.2 /\ e.2 ∈ ds).
  { intros e He. destruct (Hin e He) as [Hnil|Hes];
      [by apply elem_of_nil in Hnil|].
    apply list_elem_of_fmap in Hes as (d & -> & Hd). by split. }
  assert (Hids : id <$> m.*2 = m.*1).
  { rewrite <- list_fmap_compose. apply list_fmap_ext.
    intros i e He. simpl. symmetry. apply Hentry.
    by eapply list_elem_of_lookup_2. }
  split.
  { rewrite fmap_take, Hids. eapply sublist_NoDup; [exact Hkeys|].
    apply sublist_take. }
  split.
  { intros d Hd. apply elem_of_take in Hd as (i & Hd & _).
    apply list_elem_of_lookup_2 in Hd.
    apply list_elem_of_fmap in Hd as (e & -> & He). by apply Hentry. }
  split. { rewrite length_take. lia. }
  intros Hnd. rewrite Hfresh.
  - simpl. rewrite <- list_fmap_compose. f_equal.
    by rewrite <- (list_fmap_id ds) at 2.
  - simpl. rewrite <- list_fmap_compose. exact Hnd.
Qed.

(* --------------------------------------------------------------------- *)
(** ** Requeueing and rendering *)
(* --------------------------------------------------------------------- *)



(** X17.  [render] disables the next button and never touches the round
    itself.  Without a current item it does nothing else.  With one, it
    shows the buttons of the phase the state is in, keeps a clue that is
    already chosen (drawing no random number), and otherwise chooses one of
    the item's clues with one random draw. *)
Theorem render_fixes_the_clue (σ : Sys) :
  btnNextDisabled (env (render σ)) = true
  /\ (done (st (render σ)), score (st (render σ)), phase (st (render σ)),
      queue (st (render σ)), current (st (render σ)), stats (st (render σ)))
     = (done (st σ), score (st σ), phase (st σ), queue (st σ),
        current (st σ), stats (st σ))
  /\ (current (st σ) = None ->
      st (render σ) = st σ /\ buttons (env (render σ)) = buttons (env σ)
      /\ rng (env (render σ)) = rng (env σ))
  /\ (forall item, current (st σ) = Some item ->
      buttons (env (render σ))
      = match phase (st σ) with
        | meaning => MeaningButtons (meaningChoices (st σ)) true
        | article_phase => ArticleButtons true
        end
      /\ (currentClue (st σ) <> "" ->
          currentClue (st (render σ)) = currentClue (st σ)
          /\ rng (env (render σ)) = rng (env σ))
      /\ (currentClue (st σ) = "" -> unit_interval (rng (env σ)) ->
          clues_de item <> [] ->
          currentClue (st (render σ)) ∈ clues_de item
          /\ pos (rng (env (render σ))) = S (pos (rng (env σ))))).
Proof.
  unfold render. simpl.
  destruct (current (st σ)) as [item|] eqn:Hc.
  - split.
    { destruct (bool_decide _); unfold pick_clue, Math_random; simpl;
        destruct (phase (st σ)) eqn:Hph; simpl; by rewrite ?Hph, ?Hc. }
    split.
    { destruct (bool_decide _); unfold pick_clue, Math_random; simpl;
        destruct (phase (st σ)) eqn:Hph; simpl; by rewrite ?Hph, ?Hc. }
    split; [done|]. intros item' [= <-]. split.
    { destruct (bool_decide _); unfold pick_clue, Math_random; simpl;
        destruct (phase (st σ)) eqn:Hph; simpl; by rewrite ?Hph, ?Hc. }
    split.
    + intros Hclue. rewrite bool_decide_eq_false_2 by done.
      simpl. by destruct (phase (st σ)) eqn:Hph.
    + intros Hclue Hunit Hne. rewrite bool_decide_eq_true_2 by done.
      unfold pick_clue, Math_random. simpl.
      destruct (Hunit (pos (rng (env σ)))) as [H0 H1].
      assert (Hlen : (0 < length (clues_de item))%nat)
        by (destruct (clues_de item); [done|simpl; lia]).
      pose proof (floor_index_range _ _ H0 H1 Hlen) as Hidx.
      destruct (lookup_lt_is_Some_2 _ _ Hidx) as [c Hlook].
      destruct (phase (st σ)) eqn:Hph; simpl; rewrite Hlook; simpl;
        (split; [by eapply list_elem_of_lookup_2|done]).
  - split; [done|]. split; [simpl; by rewrite Hc|]. split; [done|].
    by intros item.
Qed.

(* --------------------------------------------------------------------- *)
(** ** What holds in every session *)
(* --------------------------------------------------------------------- *)

Section Sessions.
Context `{JSON}.

Lemma startRound_queue (σ : Sys) :
  exists q σ1,
    round_view σ1 = view_reset q (round_view σ)
    /\ startRound σ = nextItem σ1
    /\ (q = [] -> vocab (st σ) = [])
    /\ (length q <= length (vocab (st σ)))%nat
    /\ ((20 <= length (vocab (st σ)))%nat -> length q = 20%nat).
Proof.
  unfold startRound. unfold_js. cbn [final].
  set (σa := on_state (set_phase meaning) _).
  destruct (buildRoundQueue_facts σa) as (Hlen & _ & _ & _ & _ & Hv).
  destruct (buildRoundQueue σa) as [q σb]. cbn [fst snd] in *.
  exists q, (on_state (set_queue q) σb).
  split; [|split; [done|]].
  - subst σa. view_fields Hv.
    unfold round_view, view_reset. cbn. congruence.
  - change (vocab (st σa)) with (vocab (st σ)) in Hlen.
    unfold TARGET_SETS in Hlen. split.
    + intros ->. destruct (vocab (st σ)); [done|].
      simpl length in Hlen. lia.
    + split; [lia|]. intros Hbig. lia.
Qed.

Lemma view_eq_full (σ' : Sys) (v : RoundView) :
  round_view σ' = v ->
  vocab (st σ') = v_vocab v /\ target (st σ') = v_target v
  /\ done (st σ') = v_done v /\ queue (st σ') = v_queue v
  /\ current (st σ') = v_current v /\ lock (st σ') = v_lock v
  /\ buttons (env σ') = v_buttons v
  /\ btnNextDisabled (env σ') = v_btnNextDisabled v
  /\ timers (env σ') = v_timers v.
Proof. by intros <-. Qed.

Lemma disabled_off (b : Buttons) : buttons_enabled (disabled b) = false.
Proof. by destruct b. Qed.

Ltac use_view Hv :=
  apply view_eq_full in Hv
    as (Hvo' & Hta' & Hdo' & Hqu' & Hcu' & Hlo' & Hbu' & Hbn' & Hti').

(** [nextItem], by cases, with what it returns. *)
Lemma nextItem_outcome (σ : Sys) :
  (target (st σ) <= done (st σ)
   /\ threw (nextItem σ) = false
   /\ round_view (final (nextItem σ)) = view_complete (round_view σ))
  \/ (done (st σ) < target (st σ) /\ queue (st σ) = []
      /\ threw (nextItem σ) = true
      /\ round_view (final (nextItem σ)) = view_underflow (round_view σ))
  \/ (exists x rest cs clue,
        done (st σ) < target (st σ) /\ queue (st σ) = x :: rest
        /\ threw (nextItem σ) = false
        /\ round_view (final (nextItem σ))
           = view_draw x rest cs clue (round_view σ)).
Proof.
  destruct (decide (target (st σ) <= done (st σ))) as [Hd|Hd].
  - left. destruct (nextItem_complete σ Hd) as (σ' & -> & Hv). by split.
  - destruct (queue (st σ)) as [|x rest] eqn:Hq.
    + right; left. destruct (nextItem_underflow σ ltac:(lia) Hq).
      repeat split; (done || lia).
    + right; right.
      destruct (nextItem_draw σ x rest ltac:(lia) Hq)
        as (σ' & cs & clue & -> & Hv).
      exists x, rest, cs, clue. repeat split; (done || lia).
Qed.

Ltac page_done :=
  repeat split; intros; try done; try congruence; try lia; try (by eauto);
  try (match goal with
       | Hi : ?items = [], He : ?items = [] -> _ /\ _ |- _ =>
           destruct (He Hi)
       end; try done; try congruence).

(** One event keeps the page invariant; an exception can only come from
    the dequeue of [nextItem]. *)
Lemma step_page (items : list VocabItem) (e : Event) (σ : Sys) :
  page_inv items σ -> enabled e σ = true ->
  page_inv items (final (handler e σ))
  /\ (threw (handler e σ) = true ->
      (e = ClickNext /\ queue (st σ) = [] /\ done (st σ) < target (st σ))
      \/ (e = ClickRestart /\ items = [])).
Proof.
  intros (Hvo & Hta & Hlo & Hnext & Hcur & Hempty) Hen.
  destruct e as [ch|a| | |]; simpl in *.
  - destruct (buttons (env σ)) as [|cs [|]|] eqn:Hb; try done.
    destruct (current (st σ)) as [cur|] eqn:Hc; [|by destruct Hcur].
    destruct (onMeaningAnswer_view ch σ cur Hlo Hc) as (σ' & pos & -> & _ & Hv).
    split; [|done]. simpl. use_view Hv. unfold page_inv.
    rewrite Hvo', Hta', Hlo', Hbu', Hbn', Hcu', Hqu'.
    destruct (isCorrect ch); simpl; rewrite Hb, Hc; simpl; page_done.
  - destruct (buttons (env σ)) as [|cs en|[|]] eqn:Hb; try done.
    destruct (current (st σ)) as [cur|] eqn:Hc; [|by destruct Hcur].
    destruct (onArticleAnswer_view a σ cur Hlo Hc) as (σ' & pos & -> & _ & Hv).
    split; [|done]. simpl. use_view Hv. unfold page_inv.
    rewrite Hvo', Hta', Hlo', Hbu', Hbn', Hcu', Hqu'.
    destruct (bool_decide (a = article cur)); simpl; rewrite Hb, Hc; simpl;
      page_done.
  - apply negb_true_iff in Hen. specialize (Hnext Hen). unfold_js.
    set (σ1 := on_env (set_btnNextDisabled true) σ).
    destruct (nextItem_outcome σ1)
      as [(Hd & Hth & Hv)|[(Hd & Hq & Hth & Hv)|(x & rest & cs & clue & Hd & Hq
                                                 & Hth & Hv)]];
      use_view Hv; unfold page_inv;
      rewrite Hvo', Hta', Hlo', Hbu', Hbn', Hcu', Hqu', Hth; subst σ1;
      simpl in *; page_done.
  - destruct (startRound_queue σ) as (q & σ1 & Hv1 & -> & Hlen & Hle & _).
    apply view_eq_full in Hv1
      as (Hvo1 & Hta1 & Hdo1 & Hqu1 & Hcu1 & Hlo1 & Hbu1 & Hbn1 & Hti1).
    simpl in *.
    assert (Hq0 : queue (st σ1) = [] -> items = []).
    { rewrite Hqu1, <- Hvo. exact Hlen. }
    assert (Hoff : items = [] -> buttons_enabled (buttons (env σ)) = false).
    { intros Hi. destruct (Hempty Hi) as [Hnone _].
      destruct (buttons_enabled (buttons (env σ))); [|done].
      by destruct Hcur. }
    destruct (nextItem_outcome σ1)
      as [(Hd & Hth & Hv)|[(Hd & Hq & Hth & Hv)|(x & rest & cs & clue & Hd & Hq
                                                 & Hth & Hv)]];
      use_view Hv; unfold page_inv;
      rewrite Hvo', Hta', Hlo', Hbu', Hbn', Hcu', Hqu', Hth; simpl;
      rewrite ?Hvo1, ?Hta1, ?Hlo1, ?Hbu1, ?Hbn1, ?Hcu1.
    + rewrite Hta1, Hdo1, Hta in Hd. unfold TARGET_SETS in Hd. lia.
    + specialize (Hq0 Hq). specialize (Hoff Hq0). page_done.
    + rewrite Hqu1 in Hq. subst q. rewrite Hvo in Hle.
      page_done;
        match goal with Hi : items = [] |- _ => rewrite Hq, Hi in Hle end;
        simpl in Hle; lia.
  - unfold_js. simpl.
    set (σ1 := on_env (fun e => set_timers (pred (timers e)) e) σ).
    pose proof (render_view σ1) as Hv. split; [|done].
    destruct (current (st σ1)) as [cur|] eqn:Hc;
      use_view Hv; unfold page_inv;
      rewrite Hvo', Hta', Hlo', Hbu', Hbn', Hcu', Hqu'; subst σ1; simpl in *;
      page_done.
Qed.

Lemma loaded_page (items : list VocabItem) (stored : gmap string Stat)
    (e : Env) :
  page_inv items (loaded items stored e).
Proof. unfold page_inv, loaded. simpl. by repeat split. Qed.

Lemma run_page (items : list VocabItem) (es : list Event) (σ0 σ : Sys) :
  page_inv items σ0 -> run es σ0 = Some σ -> page_inv items σ.
Proof.
  revert σ0. induction es as [|ev es IH]; intros σ0 Hinv Hrun; simpl in Hrun.
  - by injection Hrun as <-.
  - unfold step in Hrun. destruct (enabled ev σ0) eqn:Hen; [|done].
    eapply IH; [|exact Hrun]. by apply step_page.
Qed.

(** In a round on at least [TARGET_SETS] items [startRound] draws the
    first item without throwing. *)
Lemma startRound_full (σ : Sys) :
  target (st σ) = TARGET_SETS ->
  (20 <= length (vocab (st σ)))%nat ->
  threw (startRound σ) = false /\ full_round_inv (final (startRound σ)).
Proof.
  intros Hta Hbig.
  destruct (startRound_queue σ) as (q & σ1 & Hv1 & -> & _ & _ & Hlen).
  specialize (Hlen Hbig).
  apply view_eq_full in Hv1
    as (Hvo1 & Hta1 & Hdo1 & Hqu1 & Hcu1 & Hlo1 & Hbu1 & Hbn1 & Hti1).
  simpl in *.
  destruct (nextItem_outcome σ1)
    as [(Hd & Hth & Hv)|[(Hd & Hq & Hth & Hv)|(x & rest & cs & clue & Hd & Hq
                                               & Hth & Hv)]].
  - rewrite Hta1, Hdo1, Hta in Hd. unfold TARGET_SETS in Hd. lia.
  - rewrite Hqu1 in Hq. rewrite Hq in Hlen. done.
  - split; [exact Hth|]. use_view Hv. unfold full_round_inv.
    rewrite Hvo', Hta'. simpl. rewrite Hvo1, Hta1.
    split; [done|]. split; [unfold TARGET_SETS; simpl; lia|].
    left. unfold draw_open. rewrite Hbn', Hcu', Hdo', Hqu'. simpl.
    rewrite Hdo1. rewrite Hqu1 in Hq. rewrite Hq in Hlen. simpl in Hlen.
    unfold TARGET_SETS. repeat split; (done || lia).
Qed.

(** One timely event of a round on a full catalogue returns normally and
    leads to a state of one of the three kinds. *)
Lemma step_full (e : Event) (σ : Sys) :
  full_round_inv σ ->
  (e = TimerFires \/ timers (env σ) = 0%nat) ->
  enabled e σ = true ->
  threw (handler e σ) = false /\ full_round_inv (final (handler e σ)).
Proof.
  intros (Hta & Hbig & Hkind) Htimely Hen.
  assert (Hopen : buttons_enabled (buttons (env σ)) = true
                  \/ (0 < timers (env σ))%nat -> draw_open σ).
  { intros Hor. destruct Hkind as [Ho|[(_ & Hoff & Ht0 & _)|(_ & Hoff & Ht0 & _)]];
      [done| |]; destruct Hor; (congruence || lia). }
  destruct e as [ch|a| | |]; simpl in *.
  - destruct Htimely as [|Ht0]; [done|].
    destruct (buttons (env σ)) as [|cs [|]|] eqn:Hb; try done.
    destruct (Hopen ltac:(by left)) as (Hbn & Hcur & Hd0 & Hcount).
    destruct (lock (st σ)) eqn:Hl.
    { rewrite onMeaningAnswer_locked by done. split; [done|].
      unfold full_round_inv. simpl. split; [done|]. split; [done|]. left.
      unfold draw_open. by repeat split. }
    destruct (current (st σ)) as [cur|] eqn:Hc; [|done].
    destruct (onMeaningAnswer_view ch σ cur Hl Hc) as (σ' & pos & -> & Hp & Hv).
    split; [done|]. simpl. use_view Hv. unfold full_round_inv.
    rewrite Hvo', Hta'. destruct (isCorrect ch); simpl.
    + split; [done|]. split; [done|]. left. unfold draw_open.
      rewrite Hbn', Hcu', Hdo', Hqu'. simpl. by rewrite Hc.
    + split; [done|]. split; [done|]. right; left. unfold draw_resolved.
      rewrite Hbn', Hbu', Hti', Hdo', Hqu'. simpl.
      rewrite disabled_off. unfold splice_in.
      rewrite length_app, length_take. simpl. rewrite length_drop.
      repeat split; (done || lia).
  - destruct Htimely as [|Ht0]; [done|].
    destruct (buttons (env σ)) as [|cs en|[|]] eqn:Hb; try done.
    destruct (Hopen ltac:(by left)) as (Hbn & Hcur & Hd0 & Hcount).
    destruct (lock (st σ)) eqn:Hl.
    { rewrite onArticleAnswer_locked by done. split; [done|].
      unfold full_round_inv. simpl. split; [done|]. split; [done|]. left.
      unfold draw_open. by repeat split. }
    destruct (current (st σ)) as [cur|] eqn:Hc; [|done].
    destruct (onArticleAnswer_view a σ cur Hl Hc) as (σ' & pos & -> & Hp & Hv).
    split; [done|]. simpl. use_view Hv. unfold full_round_inv.
    rewrite Hvo', Hta'. destruct (bool_decide (a = article cur)); simpl;
      (split; [done|]); (split; [done|]); right; left; unfold draw_resolved;
      rewrite Hbn', Hbu', Hti', Hdo', Hqu'; simpl; rewrite disabled_off.
    + repeat split; (done || lia).
    + unfold splice_in. rewrite length_app, length_take. simpl.
      rewrite length_drop. repeat split; (done || lia).
  - apply negb_true_iff in Hen. unfold_js.
    destruct Hkind as [(Hbn & _)|[(Hbn & Hoff & Ht0 & Hd0 & Hcount)|(Hbn & _)]];
      try congruence.
    set (σ1 := on_env (set_btnNextDisabled true) σ).
    destruct (nextItem_outcome σ1)
      as [(Hd & Hth & Hv)|[(Hd & Hq & Hth & Hv)|(x & rest & cs & clue & Hd & Hq
                                                 & Hth & Hv)]];
      subst σ1; simpl in *.
    + split; [exact Hth|]. use_view Hv. unfold full_round_inv.
      rewrite Hvo', Hta'. simpl. split; [done|]. split; [done|].
      right; right. unfold round_complete.
      rewrite Hbn', Hbu', Hti', Hdo', Hqu'. simpl.
      assert (length (queue (st σ)) = 0%nat) by lia.
      destruct (queue (st σ)); [|done]. repeat split; (done || lia).
    + rewrite Hq in Hcount. simpl in Hcount. lia.
    + split; [exact Hth|]. use_view Hv. unfold full_round_inv.
      rewrite Hvo', Hta'. simpl. split; [done|]. split; [done|].
      left. unfold draw_open. rewrite Hbn', Hcu', Hdo', Hqu'. simpl.
      rewrite Hq in Hcount. simpl in Hcount. repeat split; (done || lia).
  - apply startRound_full; [done|]. unfold TARGET_SETS in Hbig.
    simpl in Hbig. lia.
  - apply bool_decide_eq_true in Hen.
    destruct (Hopen ltac:(by right)) as (Hbn & Hcur & Hd0 & Hcount).
    unfold_js. simpl. split; [done|].
    set (σ1 := on_env (fun e => set_timers (pred (timers e)) e) σ).
    pose proof (render_view σ1) as Hv.
    destruct (current (st σ)) as [cur|] eqn:Hc; [|done].
    replace (current (st σ1)) with (Some cur) in Hv by done.
    use_view Hv. unfold full_round_inv. rewrite Hvo', Hta'. simpl.
    split; [done|]. split; [done|]. left. unfold draw_open.
    rewrite Hbn', Hcu', Hdo', Hqu'. simpl. by rewrite Hc.
Qed.

Lemma run_full (es : list Event) (σ0 : Sys) :
  full_round_inv σ0 -> timely es σ0 = true ->
  quiet es σ0 = true
  /\ forall σ, run es σ0 = Some σ -> full_round_inv σ.
Proof.
  revert σ0. induction es as [|ev es IH]; intros σ0 Hinv Ht; simpl in *.
  { split; [done|]. by intros σ [= <-]. }
  apply andb_true_iff in Ht as [Hnow Hrest]. unfold step in *.
  destruct (enabled ev σ0) eqn:Hen; [|done].
  assert (Htimely : ev = TimerFires \/ timers (env σ0) = 0%nat).
  { destruct ev; try (right; by apply bool_decide_eq_true in Hnow). by left. }
  destruct (step_full ev σ0 Hinv Htimely Hen) as [Hth Hinv'].
  destruct (IH _ Hinv' Hrest) as [Hquiet Hrun].
  rewrite Hth, Hquiet. by split.
Qed.
End Sessions.


(** X18.  In every state of a session the catalogue and the target are
    the ones the page started with and the lock is free; enabled choice
    buttons belong to a current item and exclude an enabled next button;
    and the only exception a handler can raise is the dequeue from an
    empty queue in [nextItem], on the next button of an unfinished round
    or on a restart with an empty catalogue.  Answers and renders never
    throw. *)
Theorem session_never_sticks `{JSON}
    (items : list VocabItem) (stored : gmap string Stat) (e : Env)
    (es : list Event) (σ : Sys) :
  run es (booted items stored e) = Some σ ->
  vocab (st σ) = items
  /\ target (st σ) = TARGET_SETS
  /\ lock (st σ) = false
  /\ (buttons_enabled (buttons (env σ)) = true ->
      current (st σ) <> None /\ btnNextDisabled (env σ) = true)
  /\ forall ev, enabled ev σ = true -> threw (handler ev σ) = true ->
       (ev = ClickNext /\ queue (st σ) = [] /\ done (st σ) < target (st σ))
       \/ (ev = ClickRestart /\ items = []).
Proof.
  intros Hrun.
  assert (Hboot : page_inv items (booted items stored e)).
  { apply (step_page items ClickRestart (loaded items stored e));
      [apply loaded_page|done]. }
  pose proof (run_page items es _ σ Hboot Hrun) as Hinv.
  pose proof Hinv as (Hvo & Hta & Hlo & Hnext & Hcur & _).
  split; [done|]. split; [done|]. split; [done|]. split.
  - intros Hen. split; [by apply Hcur|].
    destruct (btnNextDisabled (env σ)); [done|].
    rewrite Hnext in Hen; done.
  - intros ev Hen. by apply step_page.
Qed.

Lemma session_never_sticks_witness :
  @run sample_JSON [ClickRestart] (@booted sample_JSON small_vocab ∅ sample_env)
  = Some (restarted small_vocab)
  /\ lock (st (restarted small_vocab)) = false
  /\ vocab (st (restarted small_vocab)) = small_vocab.
Proof.
  assert (Hrun : @run sample_JSON [ClickRestart]
                   (@booted sample_JSON small_vocab ∅ sample_env)
                 = Some (restarted small_vocab))
    by (unfold restarted; cbn [run step enabled]; reflexivity).
  pose proof (@session_never_sticks sample_JSON small_vocab ∅ sample_env
                [ClickRestart] _ Hrun) as (Hvo & _ & Hlo & _).
  split; [exact Hrun|]. split; [exact Hlo|exact Hvo].
Defined.

(** X19.  On a catalogue of at least [TARGET_SETS] items, a session in
    which no click is taken while a render is pending never throws, not
    even at its start, however many answers are wrong: [done] stays
    between 0 and the target, the items still to do are exactly the ones
    in the queue plus the one being asked, and when [done] reaches the
    target the queue is empty. *)
Theorem full_catalogue_round_never_underflows `{JSON}
    (items : list VocabItem) (stored : gmap string Stat) (e : Env)
    (es : list Event) :
  (20 <= length items)%nat ->
  timely es (booted items stored e) = true ->
  threw (startRound (loaded items stored e)) = false
  /\ quiet es (booted items stored e) = true
  /\ forall σ, run es (booted items stored e) = Some σ ->
       0 <= done (st σ) <= TARGET_SETS
       /\ done (st σ) + Z.of_nat (length (queue (st σ))) <= TARGET_SETS
       /\ TARGET_SETS - 1
          <= done (st σ) + Z.of_nat (length (queue (st σ)))
       /\ (btnNextDisabled (env σ) = false ->
           done (st σ) + Z.of_nat (length (queue (st σ))) = TARGET_SETS)
       /\ (done (st σ) = TARGET_SETS -> queue (st σ) = []).
Proof.
  intros Hbig Htimely.
  destruct (startRound_full (loaded items stored e) eq_refl Hbig)
    as [Hth Hinv].
  split; [exact Hth|].
  destruct (run_full es _ Hinv Htimely) as [Hquiet Hrun].
  split; [exact Hquiet|].
  intros σ Hσ. destruct (Hrun σ Hσ) as (_ & _ & Hkind).
  destruct Hkind as [(Hbn & _ & Hd0 & Hcount)
                    |[(Hbn & _ & _ & Hd0 & Hcount)|(Hbn & _ & _ & Hd & Hq)]];
    unfold TARGET_SETS in *.
  - split; [lia|]. split; [lia|]. split; [lia|].
    split; [congruence|]. intros Hd. lia.
  - split; [lia|]. split; [lia|]. split; [lia|].
    split; [done|]. intros Hd.
    destruct (queue (st σ)); [done|]. simpl in Hcount. lia.
  - rewrite Hq, Hd. simpl. split; [lia|]. split; [lia|]. split; [lia|].
    split; [congruence|done].
Qed.

Lemma full_catalogue_round_never_underflows_witness :
  (20 <= length full_vocab)%nat
  /\ @timely sample_JSON [ClickRestart]
       (@booted sample_JSON full_vocab ∅ sample_env) = true
  /\ @quiet sample_JSON [ClickRestart]
       (@booted sample_JSON full_vocab ∅ sample_env) = true.
Proof.
  assert (Hbig : (20 <= length full_vocab)%nat) by (vm_compute; lia).
  assert (Ht : @timely sample_JSON [ClickRestart]
                 (@booted sample_JSON full_vocab ∅ sample_env) = true)
    by (vm_compute; reflexivity).
  pose proof (@full_catalogue_round_never_underflows sample_JSON full_vocab ∅
                sample_env [ClickRestart] Hbig Ht) as (_ & Hquiet & _).
  split; [exact Hbig|]. split; [exact Ht|exact Hquiet].
Defined.

(* --------------------------------------------------------------------- *)
(** ** The statistics only grow *)
(* --------------------------------------------------------------------- *)

Lemma counters_le_refl (s : Stat) : counters_le s s.
Proof. unfold counters_le. lia. Qed.

Lemma grows_refl (σ : Sys) : grows σ σ.
Proof. intros i s Hs. exists s. split; [done|apply counters_le_refl]. Qed.

Lemma grows_trans (σ1 σ2 σ3 : Sys) : grows σ1 σ2 -> grows σ2 σ3 -> grows σ1 σ3.
Proof.
  intros H12 H23 i s Hs.
  destruct (H12 i s Hs) as (s2 & Hs2 & Hle2).
  destruct (H23 i s2 Hs2) as (s3 & Hs3 & Hle3).
  exists s3. split; [done|]. unfold counters_le in *. lia.
Qed.

Lemma grows_same (σ σ' : Sys) : stats (st σ') = stats (st σ) -> grows σ σ'.
Proof.
  intros E i s Hs. exists s. rewrite E. split; [done|apply counters_le_refl].
Qed.

Lemma grows_subseteq (σ σ' : Sys) :
  stats (st σ) ⊆ stats (st σ') -> grows σ σ'.
Proof.
  intros Hsub i s Hs. exists s.
  split; [by eapply lookup_weaken|apply counters_le_refl].
Qed.

Lemma grows_put (i : string) (s s' : Stat) (σ σ' : Sys) :
  stats (st σ) !! i = Some s -> counters_le s s' ->
  stats (st σ') = <[i := s']> (stats (st σ)) -> grows σ σ'.
Proof.
  intros Hs Hle E j r Hr. rewrite E.
  destruct (decide (j = i)) as [->|Hne].
  - rewrite lookup_insert_eq. exists s'. split; [done|]. congruence.
  - rewrite lookup_insert_ne by done. exists r.
    split; [done|apply counters_le_refl].
Qed.

Lemma ensureStat_grows (i : string) (σ : Sys) :
  grows σ (ensureStat i σ).2
  /\ stats (st (ensureStat i σ).2) !! i = Some (ensureStat i σ).1.
Proof.
  unfold ensureStat. destruct (stats (st σ) !! i) as [s|] eqn:Hs; simpl.
  - split; [apply grows_refl|done].
  - split; [|by rewrite lookup_insert_eq].
    apply grows_subseteq. simpl. by apply insert_subseteq.
Qed.

Lemma requeue_grows (σ : Sys) : grows σ (requeueCurrentAdaptive σ).
Proof.
  unfold requeueCurrentAdaptive.
  destruct (current (st σ)) as [item|]; [|apply grows_refl].
  destruct (ensureStat_grows (id item) σ) as [Hg _].
  destruct (ensureStat (id item) σ) as [s σ1]. simpl in *.
  eapply grows_trans; [exact Hg|]. by apply grows_same.
Qed.

Lemma render_grows (σ : Sys) : grows σ (render σ).
Proof.
  apply grows_same. unfold render. simpl.
  destruct (current (st σ)) as [item|]; [|done].
  destruct (bool_decide _); simpl; by destruct (phase (st σ)).
Qed.

Section Growth.
Context `{JSON}.

Lemma growing_bind {A B : Type} (m : JS A) (f : A -> JS B) :
  growing m -> (forall a, growing (f a)) -> growing (m ≫= f).
Proof.
  intros Hm Hf σ. unfold mbind, JS_bind. specialize (Hm σ).
  destruct (m σ) as [a σ'|σ']; simpl in *; [|done].
  eapply grows_trans; [exact Hm|apply Hf].
Qed.

Lemma growing_ret {A : Type} (a : A) : growing (mret a : JS A).
Proof. intros σ. apply grows_refl. Qed.

Lemma growing_update (f : Sys -> Sys) :
  (forall σ, grows σ (f σ)) -> growing (update f).
Proof. intros Hf σ. apply Hf. Qed.

Lemma growing_read {A : Type} (f : Sys -> A) : growing (read f).
Proof. intros σ. apply grows_refl. Qed.

Lemma growing_lift {A : Type} (f : Sys -> A * Sys) :
  (forall σ, grows σ (f σ).2) -> growing (lift f).
Proof. intros Hf σ. unfold lift. specialize (Hf σ). by destruct (f σ). Qed.

Lemma growing_current_item : growing current_item.
Proof.
  intros σ. unfold current_item. destruct (current (st σ)); apply grows_refl.
Qed.

Lemma growing_recordSeen (i : string) : growing (recordSeen i).
Proof.
  intros σ. unfold recordSeen. unfold_js.
  destruct (ensureStat_grows i σ) as [Hg Hs].
  destruct (ensureStat i σ) as [s σ1]. simpl in *.
  rewrite saveStats_total. simpl.
  eapply grows_trans; [exact Hg|].
  eapply grows_put; [exact Hs| |reflexivity].
  unfold counters_le. simpl. lia.
Qed.

Lemma growing_recordResult (i : string) (ph : Phase) (c : bool) :
  growing (recordResult i ph c).
Proof.
  intros σ. unfold recordResult. unfold_js.
  destruct (ensureStat_grows i σ) as [Hg Hs].
  destruct (ensureStat i σ) as [s σ1]. simpl in *.
  rewrite saveStats_total. simpl.
  eapply grows_trans; [exact Hg|].
  eapply grows_put; [exact Hs| |reflexivity].
  unfold counters_le. destruct ph, c; simpl; lia.
Qed.

Lemma growing_buildRoundQueue : growing (lift buildRoundQueue).
Proof.
  apply growing_lift. intros σ. apply grows_subseteq.
  pose proof (buildRoundQueue_facts σ) as Hf. cbv zeta in Hf.
  by destruct Hf as (_ & _ & _ & _ & Hsub & _).
Qed.

Lemma growing_buildMeaningChoices (item : VocabItem) :
  growing (lift (buildMeaningChoices item)).
Proof.
  apply growing_lift. intros σ. apply grows_same. unfold buildMeaningChoices.
  by destruct (buildMeaningChoices_on _ _ _).
Qed.

Ltac growing_step :=
  lazymatch goal with
  | |- growing (recordResult _ _ _) => apply growing_recordResult
  | |- growing (recordSeen _) => apply growing_recordSeen
  | |- growing current_item => apply growing_current_item
  | |- growing (mret _) => apply growing_ret
  | |- growing (read _) => apply growing_read
  | |- growing (update requeueCurrentAdaptive) =>
      apply growing_update, requeue_grows
  | |- growing (update render) => apply growing_update, render_grows
  | |- growing (update _) => apply growing_update; intros ?; by apply grows_same
  | |- growing (lift buildRoundQueue) => apply growing_buildRoundQueue
  | |- growing (lift (buildMeaningChoices _)) =>
      apply growing_buildMeaningChoices
  | |- growing (_ ≫= _) => apply growing_bind; [|intros ?]
  | |- growing (if ?b then _ else _) => destruct b
  | |- growing (let _ := _ in _) => cbv zeta
  end.

Lemma growing_nextItem : growing nextItem.
Proof. unfold nextItem. repeat growing_step. Qed.

Lemma growing_handler (e : Event) : growing (handler e).
Proof.
  destruct e as [ch|a| | |]; simpl.
  - unfold onMeaningAnswer. repeat growing_step.
  - unfold onArticleAnswer. repeat growing_step.
  - repeat growing_step. apply growing_nextItem.
  - unfold startRound. repeat growing_step. apply growing_nextItem.
  - repeat growing_step.
Qed.
End Growth.

(** X20.  No event of a session deletes a statistics record or lowers one
    of its counters: a record that exists in a state is still there after
    any sequence of events from it, whether or not handlers threw on the
    way, with [seen] and the four answer counters at least as large. *)
Theorem statistics_only_grow `{JSON}
    (es : list Event) (σ0 σ : Sys) (i : string) (s : Stat) :
  run es σ0 = Some σ ->
  stats (st σ0) !! i = Some s ->
  exists s', stats (st σ) !! i = Some s' /\ counters_le s s'.
Proof.
  intros Hrun. revert i s.
  change (grows σ0 σ).
  revert σ0 Hrun. induction es as [|e es IH]; intros σ0 Hrun; simpl in Hrun.
  - injection Hrun as <-. apply grows_refl.
  - unfold step in Hrun. destruct (enabled e σ0); [|done].
    eapply grows_trans; [apply growing_handler|by apply IH].
Qed.

Lemma statistics_only_grow_witness :
  @run sample_JSON [ClickRestart] (@booted sample_JSON small_vocab ∅ sample_env)
  = Some (restarted small_vocab)
  /\ stats (st (@booted sample_JSON small_vocab ∅ sample_env)) !! "hund"
     = Some (mkStat 1 0 0 0 0 1700000000000)
  /\ exists s', stats (st (restarted small_vocab)) !! "hund" = Some s'
       /\ counters_le (mkStat 1 0 0 0 0 1700000000000) s'.
Proof.
  assert (Hrun : @run sample_JSON [ClickRestart]
                   (@booted sample_JSON small_vocab ∅ sample_env)
                 = Some (restarted small_vocab))
    by (unfold restarted; cbn [run step enabled]; reflexivity).
  assert (Hs : stats (st (@booted sample_JSON small_vocab ∅ sample_env)) !! "hund"
               = Some (mkStat 1 0 0 0 0 1700000000000))
    by (vm_compute; reflexivity).
  split; [exact Hrun|]. split; [exact Hs|].
  exact (@statistics_only_grow sample_JSON [ClickRestart] _ _ "hund" _ Hrun Hs).
Defined.

(* --------------------------------------------------------------------- *)
(** ** Score and streak *)
(* --------------------------------------------------------------------- *)

Section Combo.
Context `{JSON}.

Lemma combo_of_view (σ' : Sys) (v : RoundView) :
  round_view σ' = v ->
  (score (st σ'), streak (st σ')) = (v_score v, v_streak v).
Proof. by intros <-. Qed.

Lemma nextItem_combo (σ : Sys) :
  (score (st (final (nextItem σ))), streak (st (final (nextItem σ))))
  = (score (st σ), streak (st σ)).
Proof.
  destruct (nextItem_cases σ) as [Hv|[Hv|(x & rest & cs & clue & _ & Hv)]];
    by rewrite (combo_of_view _ _ Hv).
Qed.

Lemma handler_combo (e : Event) (σ : Sys) :
  (score (st (final (handler e σ))), streak (st (final (handler e σ))))
  = score_after (score_change e σ) (score (st σ)) (streak (st σ)).
Proof.
  destruct e as [ch|a| | |]; simpl.
  - destruct (lock (st σ)) eqn:Hl.
    { by rewrite onMeaningAnswer_locked. }
    destruct (current (st σ)) as [cur|] eqn:Hc.
    + destruct (onMeaningAnswer_view ch σ cur Hl Hc)
        as (σ' & pos & -> & _ & Hv).
      simpl. rewrite (combo_of_view _ _ Hv). by destruct (isCorrect ch).
    + destruct (onMeaningAnswer_no_item ch σ Hl Hc) as [_ Hv].
      by rewrite (combo_of_view _ _ Hv).
  - destruct (lock (st σ)) eqn:Hl.
    { by rewrite onArticleAnswer_locked. }
    destruct (current (st σ)) as [cur|] eqn:Hc.
    + destruct (onArticleAnswer_view a σ cur Hl Hc)
        as (σ' & pos & -> & _ & Hv).
      simpl. rewrite (combo_of_view _ _ Hv).
      by destruct (bool_decide (a = article cur)).
    + destruct (onArticleAnswer_no_item a σ Hl Hc) as [_ Hv].
      by rewrite (combo_of_view _ _ Hv).
  - unfold_js. by rewrite nextItem_combo.
  - destruct (startRound_view σ) as (q & σ1 & Hv & ->).
    rewrite nextItem_combo. by rewrite (combo_of_view _ _ Hv).
  - unfold_js. simpl. rewrite (combo_of_view _ _ (render_view _)). simpl.
    by destruct (current (st σ)).
Qed.
End Combo.

(** X21.  Score and streak move together: an event leaves both alone, or
    it is a right answer (score + 2, streak + 1), a wrong answer (score
    down by 1 but not below 0, streak 0) or a restart (both 0); an answer
    counts only when the lock is free and there is a current item.  So in
    every state of a session the streak is not negative and the score is at
    least twice the streak. *)
Theorem streak_bounded_by_score `{JSON} (σ : Sys) :
  reachable σ ->
  0 <= streak (st σ)
  /\ 2 * streak (st σ) <= score (st σ)
  /\ forall e,
       (score (st (final (handler e σ))), streak (st (final (handler e σ))))
       = score_after (score_change e σ) (score (st σ)) (streak (st σ)).
Proof.
  intros Hr.
  assert (Hinv : 0 <= streak (st σ) /\ 2 * streak (st σ) <= score (st σ)).
  { induction Hr as [items stored e|σ e σ' _ IH Hstep].
    - unfold booted.
      pose proof (handler_combo ClickRestart (loaded items stored e)) as Hc.
      simpl in Hc. injection Hc as -> ->. lia.
    - unfold step in Hstep. destruct (enabled e σ); [|done].
      injection Hstep as <-. pose proof (handler_combo e σ) as Hc.
      destruct (score_change e σ); simpl in Hc; injection Hc as -> ->; lia. }
  destruct Hinv as [H0 H2]. split; [exact H0|]. split; [exact H2|].
  intros e. apply handler_combo.
Qed.

Lemma streak_bounded_by_score_witness :
  @reachable sample_JSON sample_boot
  /\ 2 * streak (st sample_boot) <= score (st sample_boot).
Proof.
  assert (Hr : @reachable sample_JSON sample_boot) by apply reach_boot.
  pose proof (@streak_bounded_by_score sample_JSON sample_boot Hr)
    as (_ & H2 & _).
  split; [exact Hr|exact H2].
Defined.

(* --------------------------------------------------------------------- *)
(** ** Where the answers are booked *)
(* --------------------------------------------------------------------- *)



Section Booking.
Context `{JSON}.



End Booking.



(* --------------------------------------------------------------------- *)
(** ** Saving and loading *)
(* --------------------------------------------------------------------- *)

(** X23.  [saveStats] followed by [loadStats]: on a storage that can be
    written and read, what is loaded is the parse of what was written when
    that is a non-null object, and the empty mapping when the text does not
    parse; on a storage that rejects the write, what is loaded is what
    would have been loaded before.  [saveStats] leaves [state] alone. *)
Theorem saved_statistics_load_back `{JSON} (σ : Sys) :
  let ls := storage (env σ) in
  let payload := JSON_stringify (stats (st σ)) in
  let σ' := final (saveStats σ) in
  threw (saveStats σ) = false
  /\ st σ' = st σ
  /\ (ls_writable ls = true -> ls_readable ls = true -> payload <> "" ->
      forall v, JSON_parse payload = Some v -> truthy v = true ->
                typeof v = "object" ->
                loadStats σ' = Normal v σ')
  /\ (ls_writable ls = true -> ls_readable ls = true ->
      JSON_parse payload = None -> loadStats σ' = Normal empty_object σ')
  /\ (ls_writable ls = false ->
      forall v, loadStats σ = Normal v σ -> loadStats σ' = Normal v σ').
Proof.
  intros ls payload σ'. subst ls payload σ'.
  rewrite saveStats_total. simpl.
  split; [done|]. split; [done|]. rewrite !loadStats_total.
  unfold loaded_value, after_save. simpl. split; [|split].
  - intros Hw Hr Hne v Hparse Htruthy Hty. rewrite Hw, Hr. simpl.
    rewrite lookup_insert_eq, Hparse, Htruthy.
    rewrite bool_decide_eq_false_2 by done.
    by rewrite bool_decide_eq_true_2.
  - intros Hw Hr Hparse. rewrite Hw, Hr. simpl.
    rewrite lookup_insert_eq, Hparse. by destruct (bool_decide _).
  - intros Hw v [= <-]. by rewrite Hw.
Qed.

Lemma saved_statistics_load_back_witness :
  ls_writable (storage (env sample_boot)) = true
  /\ ls_readable (storage (env sample_boot)) = true
  /\ @loadStats braces_JSON (final (@saveStats braces_JSON sample_boot))
     = Normal (JObj []) (final (@saveStats braces_JSON sample_boot)).
Proof.
  assert (Hw : ls_writable (storage (env sample_boot)) = true)
    by (vm_compute; reflexivity).
  assert (Hr : ls_readable (storage (env sample_boot)) = true)
    by (vm_compute; reflexivity).
  pose proof (@saved_statistics_load_back braces_JSON sample_boot)
    as (_ & _ & Hload & _).
  split; [exact Hw|]. split; [exact Hr|].
  apply (Hload Hw Hr); [discriminate|reflexivity|reflexivity|reflexivity].
Defined.

(* --------------------------------------------------------------------- *)
(** ** Well-formed statistics in every session *)
(* --------------------------------------------------------------------- *)



(* --------------------------------------------------------------------- *)
(** ** The choices in any catalogue *)
(* --------------------------------------------------------------------- *)

Lemma candidates_empty (pool : list VocabItem) (item : VocabItem) :
  candidates pool item = [] -> filter (other_than item) pool = [].
Proof.
  unfold candidates. destruct (decide _) as [Hmany|Hfew]; intros E.
  - rewrite E in Hmany. simpl in Hmany. lia.
  - by apply app_eq_nil in E as [_ E].
Qed.

Lemma pref_empty (pool : list VocabItem) (item : VocabItem) :
  pref pool item = [] -> filter (other_than item) pool = [].
Proof.
  unfold pref. destruct (decide _) as [Hmany|Hfew]; intros E.
  - rewrite E in Hmany. simpl in Hmany. lia.
  - by apply candidates_empty.
Qed.

Lemma rest_of_spec (pool : list VocabItem) (item : VocabItem)
    (ds : list VocabItem) (x : VocabItem) :
  x ∈ rest_of pool item ds
  <-> x ∈ pool /\ id x ≠ id item /\ id x ∉ id <$> ds.
Proof. unfold rest_of. rewrite list_elem_of_filter. tauto. Qed.

Lemma rest_of_none (pool : list VocabItem) (item : VocabItem)
    (ds : list VocabItem) :
  filter (other_than item) pool = [] -> rest_of pool item ds = [].
Proof.
  intros Hnone. destruct (rest_of pool item ds) as [|x l] eqn:E; [done|].
  assert (Hx : x ∈ rest_of pool item ds) by (rewrite E; left).
  apply rest_of_spec in Hx as (Hp & Hi & _).
  assert (Hin : x ∈ filter (other_than item) pool)
    by (by apply list_elem_of_filter).
  rewrite Hnone in Hin. by apply elem_of_nil in Hin.
Qed.

(** One distractor so far, topped up from the rest of the catalogue. *)
Lemma top_up_ok (pool : list VocabItem) (item d : VocabItem)
    (sh2 : list VocabItem) :
  d ∈ pool -> id d ≠ id item -> sh2 ≡ₚ rest_of pool item [d] ->
  distractors_ok pool item ([d] ++ take 1 sh2).
Proof.
  intros Hd Hdi Hperm. unfold distractors_ok.
  destruct sh2 as [|c sh2']; simpl.
  - split; [lia|]. split; [apply NoDup_singleton|]. split.
    + by intros x ->%list_elem_of_singleton.
    + intros _ x Hx Hxi. destruct (decide (id x = id d)) as [->|Hne];
        [by left|].
      exfalso. assert (Hin : x ∈ rest_of pool item [d]).
      { apply rest_of_spec. split; [done|]. split; [done|].
        simpl. by intros E%list_elem_of_singleton. }
      rewrite <- Hperm in Hin. by apply elem_of_nil in Hin.
  - assert (Hc : c ∈ rest_of pool item [d]) by (rewrite <- Hperm; left).
    apply rest_of_spec in Hc as (Hcp & Hci & Hcd).
    rewrite take_0. split; [lia|]. split.
    + apply NoDup_cons. split; [|apply NoDup_singleton].
      intros E%list_elem_of_singleton. apply Hcd. simpl. rewrite E. by left.
    + split; [|lia].
      intros x [->|Hx]%elem_of_cons; [done|].
      by apply list_elem_of_singleton in Hx as ->.
Qed.

Lemma pick_distractors_ok (pool : list VocabItem) (item : VocabItem)
    (g : Rng) :
  distractors_ok pool item (pick_distractors pool item g).1.
Proof.
  unfold pick_distractors.
  pose proof (shuffle_Permutation (pref pool item) g) as Hperm.
  destruct (shuffle (pref pool item) g) as [sh g1]. simpl in Hperm.
  assert (Hfrom : forall x, x ∈ sh -> x ∈ pool /\ id x ≠ id item).
  { intros x Hx. rewrite Hperm in Hx. by apply pref_others in Hx. }
  destruct sh as [|a [|b sh']].
  - symmetry in Hperm. apply Permutation_nil_r in Hperm.
    apply pref_empty in Hperm.
    replace (dedupe (take 2 [])) with (@nil VocabItem) by done.
    destruct (decide _) as [_|Hge]; [|simpl in Hge; lia].
    pose proof (shuffle_Permutation (rest_of pool item []) g1) as Hperm2.
    destruct (shuffle (rest_of pool item []) g1) as [sh2 g2]. simpl in *.
    rewrite (rest_of_none _ _ _ Hperm) in Hperm2.
    apply Permutation_nil_r in Hperm2 as ->. simpl.
    unfold distractors_ok. simpl. split; [lia|]. split; [constructor|].
    split; [by intros d Hd%elem_of_nil|].
    intros _ x Hx Hxi. exfalso.
    assert (Hin : x ∈ filter (other_than item) pool)
      by (by apply list_elem_of_filter).
    rewrite Hperm in Hin. by apply elem_of_nil in Hin.
  - replace (dedupe (take 2 [a])) with [a] by done.
    destruct (decide _) as [_|Hge]; [|simpl in Hge; lia].
    pose proof (shuffle_Permutation (rest_of pool item [a]) g1) as Hperm2.
    destruct (shuffle (rest_of pool item [a]) g1) as [sh2 g2]. simpl in *.
    destruct (Hfrom a) as [Hap Hai]; [by left|].
    by apply top_up_ok.
  - simpl take. rewrite dedupe_pair.
    destruct (Hfrom a) as [Hap Hai]; [by left|].
    destruct (Hfrom b) as [Hbp Hbi]; [right; by left|].
    destruct (decide (id b = id a)) as [Heq|Hne].
    + destruct (decide _) as [_|Hge]; [|simpl in Hge; lia].
      pose proof (shuffle_Permutation (rest_of pool item [b]) g1) as Hperm2.
      destruct (shuffle (rest_of pool item [b]) g1) as [sh2 g2]. simpl in *.
      by apply top_up_ok.
    + destruct (decide _) as [Hlt|_]; [simpl in Hlt; lia|]. simpl.
      unfold distractors_ok. simpl. split; [lia|]. split.
      * apply NoDup_cons. split; [|apply NoDup_singleton].
        by intros E%list_elem_of_singleton.
      * split; [|lia].
        intros x [->|Hx]%elem_of_cons; [done|].
        by apply list_elem_of_singleton in Hx as ->.
Qed.

Lemma filter_none {A : Type} (P : A -> Prop) `{forall x, Decision (P x)}
    (l : list A) :
  Forall (fun x => ~ P x) l -> filter P l = [].
Proof. induction 1; [done|]. by rewrite filter_cons_False. Qed.

(** X25.  In any catalogue, with or without duplicate ids and however few
    words it has, [buildMeaningChoices] shows the drawn item and its
    distractors in some order: between one and three choices with pairwise
    distinct ids, exactly one of them marked correct, the item itself; the
    distractors are catalogue items with another id; and fewer than three
    choices are shown only when the catalogue has no further id to offer.
    Only the random source is advanced.  The random draws are taken in
    [0,1), the contract of [Math.random()]. *)
Theorem buildMeaningChoices_any_catalogue (item : VocabItem) (σ : Sys) :
  let pool := vocab (st σ) in
  let ds := (pick_distractors pool item (rng (env σ))).1 in
  let cs := (buildMeaningChoices item σ).1 in
  unit_interval (rng (env σ)) ->
  cs ≡ₚ to_choice item <$> (item :: ds)
  /\ (1 <= length cs <= 3)%nat
  /\ NoDup (ch_id <$> cs)
  /\ filter (fun c => isCorrect c = true) cs = [to_choice item item]
  /\ (forall d, d ∈ ds -> d ∈ pool /\ id d ≠ id item)
  /\ ((length cs < 3)%nat ->
      forall x, x ∈ pool -> id x ∈ ch_id <$> cs)
  /\ st (buildMeaningChoices item σ).2 = st σ.
Proof.
  intros pool ds cs _.
  pose proof (pick_distractors_ok pool item (rng (env σ)))
    as (Hlen & Hnd & Hfrom & Hall).
  fold ds in Hlen, Hnd, Hfrom, Hall.
  assert (Hperm : cs ≡ₚ to_choice item <$> (item :: ds)
                  /\ st (buildMeaningChoices item σ).2 = st σ).
  { subst cs ds. unfold buildMeaningChoices, buildMeaningChoices_on. fold pool.
    destruct (pick_distractors pool item (rng (env σ))) as [ds g1].
    pose proof (shuffle_Permutation (item :: ds) g1) as Hsh.
    destruct (shuffle (item :: ds) g1) as [sh g2]. simpl in *.
    split; [by rewrite Hsh|done]. }
  destruct Hperm as [Hperm Hst].
  assert (Hids : ch_id <$> cs ≡ₚ id item :: (id <$> ds)).
  { rewrite Hperm, <- list_fmap_compose. done. }
  split; [exact Hperm|]. split.
  { rewrite Hperm, length_fmap. simpl. lia. }
  split.
  { rewrite Hids. apply NoDup_cons. split; [|exact Hnd].
    intros (d & Hd & Hin)%list_elem_of_fmap.
    destruct (Hfrom d Hin) as [_ Hne]. by apply Hne. }
  split.
  { apply Permutation_singleton_r. rewrite Hperm. rewrite fmap_cons.
    rewrite filter_cons_True by (simpl; by apply bool_decide_eq_true).
    rewrite filter_none; [done|].
    apply Forall_fmap, Forall_forall. intros d Hd. simpl.
    destruct (Hfrom d Hd) as [_ Hne]. rewrite bool_decide_eq_true. done. }
  split; [exact Hfrom|]. split; [|exact Hst].
  intros Hfew x Hx. rewrite Hids.
  destruct (decide (id x = id item)) as [->|Hne]; [by left|]. right.
  apply Hall; [|done|done].
  rewrite Hperm, length_fmap in Hfew. simpl in Hfew. lia.
Qed.

Lemma buildMeaningChoices_any_catalogue_witness :
  unit_interval (rng (env sample_boot))
  /\ NoDup (ch_id <$> (buildMeaningChoices Katze sample_boot).1)
  /\ filter (fun c => isCorrect c = true)
       (buildMeaningChoices Katze sample_boot).1
     = [to_choice Katze Katze].
Proof.
  pose proof (buildMeaningChoices_any_catalogue Katze sample_boot
                sample_boot_unit_interval) as (_ & _ & Hnd & Hone & _).
  split; [exact sample_boot_unit_interval|]. split; [exact Hnd|exact Hone].
Defined.

(* --------------------------------------------------------------------- *)
(** ** The further properties at concrete inputs *)
(* --------------------------------------------------------------------- *)

Lemma zero_rng_unit_interval : unit_interval zero_rng.
Proof. intros n. vm_compute. split; [discriminate|reflexivity]. Defined.

(** The three-word catalogue, shuffled with draws that are all 0. *)
Lemma shuffle_permutes_witness :
  unit_interval zero_rng
  /\ (shuffle small_vocab zero_rng).1 ≡ₚ small_vocab
  /\ pos (shuffle small_vocab zero_rng).2 = 2%nat.
Proof.
  pose proof (shuffle_permutes small_vocab zero_rng zero_rng_unit_interval)
    as (Hperm & _ & Hpos & _).
  split; [exact zero_rng_unit_interval|]. split; [exact Hperm|exact Hpos].
Defined.


Lemma hund_record_safe : safe_counters (mkStat 1 0 0 0 0 1700000000000).
Proof. vm_compute. repeat split; discriminate. Defined.

(** A right article answer booked on the first word of the booted round. *)
Lemma recordResult_counts_witness :
  stats (st sample_boot) !! "hund" = Some (mkStat 1 0 0 0 0 1700000000000)
  /\ safe_counters (mkStat 1 0 0 0 0 1700000000000)
  /\ exists σ' s',
       @recordResult sample_JSON "hund" article_phase true sample_boot
       = Normal tt σ'
       /\ stats (st σ') !! "hund" = Some s'
       /\ correctArticle s' = 1.
Proof.
  assert (Hs : stats (st sample_boot) !! "hund"
               = Some (mkStat 1 0 0 0 0 1700000000000))
    by (vm_compute; reflexivity).
  split; [exact Hs|]. split; [exact hund_record_safe|].
  destruct (@recordResult_counts sample_JSON "hund" article_phase true
              sample_boot _ Hs hund_record_safe)
    as (σ' & s' & Hrun & Hlook & _ & _ & _ & _ & (Hc & _) & _).
  exists σ', s'. split; [exact Hrun|]. split; [exact Hlook|exact Hc].
Defined.


(** From the moment the item was seen to twelve hours later. *)
Lemma recencyFactor_monotone_in_time_witness :
  1000 <= twelve_hours_later
  /\ (recencyFactor 1000 stat_seen_at_1000
      <= recencyFactor twelve_hours_later stat_seen_at_1000)%Q.
Proof.
  assert (Hle : 1000 <= twelve_hours_later) by (vm_compute; discriminate).
  split; [exact Hle|].
  exact (recencyFactor_monotone_in_time 1000 twelve_hours_later
           stat_seen_at_1000 Hle).
Defined.


(** Five items asked of the three-word catalogue. *)
Lemma pickWeightedUnique_whole_pool_witness :
  Z.of_nat (length small_vocab) <= 5
  /\ (pickWeightedUnique zero_weight no_random small_vocab 5 tt).1
     ≡ₚ small_vocab.
Proof.
  assert (Hk : Z.of_nat (length small_vocab) <= 5)
    by (vm_compute; discriminate).
  split; [exact Hk|].
  exact (pickWeightedUnique_whole_pool zero_weight no_random small_vocab 5 tt
           Hk).
Defined.

Lemma zero_weight_weightless :
  forall (x : VocabItem) (w' : unit), ((zero_weight x w').1 <= 0)%Q.
Proof. intros x w'. vm_compute. discriminate. Defined.

(** Two items asked with all weights 0. *)
Lemma pickWeightedUnique_weightless_prefix_witness :
  (forall (x : VocabItem) (w' : unit), ((zero_weight x w').1 <= 0)%Q)
  /\ (pickWeightedUnique zero_weight no_random small_vocab 2 tt).1
     = [Hund; Katze].
Proof.
  split; [exact zero_weight_weightless|].
  exact (pickWeightedUnique_weightless_prefix zero_weight no_random
           small_vocab 2 tt zero_weight_weightless).
Defined.

(** The flawless session on the three-word catalogue is timely. *)
Lemma timely_sessions_complete_properly_witness :
  @timely sample_JSON flawless_session
     (@booted sample_JSON small_vocab ∅ sample_env) = true
  /\ @monitor sample_JSON flawless_session
       (@booted sample_JSON small_vocab ∅ sample_env) false <> Violated.
Proof.
  assert (Ht : @timely sample_JSON flawless_session
                 (@booted sample_JSON small_vocab ∅ sample_env) = true)
    by (vm_compute; reflexivity).
  split; [exact Ht|].
  exact (@timely_sessions_complete_properly sample_JSON small_vocab ∅
           sample_env flawless_session Ht).
Defined.

(** The first word of the booted round, answered with another word. *)
Lemma miss_requeues_witness :
  lock (st sample_boot) = false
  /\ current (st sample_boot) = Some Hund
  /\ exists pos, (pos <= length (queue (st sample_boot)))%nat
       /\ done (st (final (@onMeaningAnswer sample_JSON
                             (to_choice Hund Katze) sample_boot)))
          = done (st sample_boot)
       /\ queue (st (final (@onMeaningAnswer sample_JSON
                              (to_choice Hund Katze) sample_boot)))
          = splice_in pos Hund (queue (st sample_boot)).
Proof.
  assert (Hl : lock (st sample_boot) = false) by (vm_compute; reflexivity).
  assert (Hc : current (st sample_boot) = Some Hund)
    by (vm_compute; reflexivity).
  split; [exact Hl|]. split; [exact Hc|].
  exact (proj1 (@miss_requeues sample_JSON sample_boot Hund Hl Hc)
           (to_choice Hund Katze) eq_refl).
Defined.

(** Advancing before any queue is built. *)
Lemma advance_on_empty_queue_throws_witness :
  done (st (loaded small_vocab ∅ sample_env))
  < target (st (loaded small_vocab ∅ sample_env))
  /\ queue (st (loaded small_vocab ∅ sample_env)) = []
  /\ threw (@nextItem sample_JSON (loaded small_vocab ∅ sample_env)) = true.
Proof.
  assert (Hd : done (st (loaded small_vocab ∅ sample_env))
               < target (st (loaded small_vocab ∅ sample_env)))
    by (vm_compute; reflexivity).
  assert (Hq : queue (st (loaded small_vocab ∅ sample_env)) = [])
    by reflexivity.
  split; [exact Hd|]. split; [exact Hq|].
  exact (proj1 (@advance_on_empty_queue_throws sample_JSON
                  (loaded small_vocab ∅ sample_env) Hd Hq)).
Defined.
